(** * Requiem: the bounded model checker of formal/model_checker.py

    A shallow embedding of the five checks of the model checker
    (CAS, Protocol, Replay, Determinism, PolicyCompiler) and the
    properties of them that the specification states.

    Conventions of the embedding:
    - a Python [dict] is a [gmap], a [set]/[frozenset] a [gset], a [list]
      a [list]; iterating over a set goes through [elements];
    - a Python [int] is a [Z];
    - a Python [str] is a [string] with one [ascii] per character: the
      characters are the code points up to U+00FF, and a string with a
      character beyond them has no counterpart in the model;
    - the list [violations] of formatted strings is a list of records
      carrying the invariant identifier and the interpolated values;
    - the process-wide random source is a tape of draws read through a
      cursor that is threaded through the code;
    - a loop whose trip count is not a bound known in advance takes fuel and
      returns [None] when the fuel runs out. *)

From Stdlib Require Import ZArith.
From stdpp Require Import gmap strings list fin_maps relations.

Local Open Scope string_scope.
Local Open Scope list_scope.
Local Open Scope stdpp_scope.

(** ** CAS model: [check_cas] *)

Module CAS.

Definition DIGESTS : list string := ["d1"; "d2"].
Definition CONTENT : list string := ["c_a"; "c_b"].

(** One entry of the BFS queue without its depth: [store], [writes_ok]
    and [errors]. *)
Record state : Type := State {
  store : gmap string string;
  writes_ok : gset (string * string);
  errors : gset (string * string)
}.

Definition initial : state := State ∅ ∅ ∅.

Global Instance state_eq_dec : EqDecision state.
Proof. solve_decision. Defined.

Global Instance state_countable : Countable state.
Proof.
  refine (inj_countable' (λ s, (store s, writes_ok s, errors s))
                         (λ t, State t.1.1 t.1.2 t.2) _).
  by intros [].
Defined.

(** [state_key]: the store as its sorted item tuple, and the two frozensets.
    A [gmap] is already canonical, so the key is the state. *)
Definition state_key (s : state) : state := s.

Inductive violation : Type :=
| CAS_INV_1 (d stored c : string)
| CAS_INV_2 (d c : string)
| CAS_INV_4 (d c : string).

(** Lines 70-74. *)
Definition check_inv1 (s : state) : list violation :=
  '(d, c) ← elements (writes_ok s);
  match store s !! d with
  | Some c' => if decide (c' ≠ c) then [CAS_INV_1 d c' c] else []
  | None => []
  end.

(** Lines 77-82. *)
Definition check_inv2 (s : state) : list violation :=
  '(d, c) ← elements (writes_ok s);
  if decide ((d, c) ∉ errors s) then
    match store s !! d with
    | Some c' => if decide (c' ≠ c) then [CAS_INV_2 d c] else []
    | None => [CAS_INV_2 d c]
    end
  else [].

(** Lines 85-89. *)
Definition check_inv4 (s : state) : list violation :=
  '(d, c) ← elements (errors s);
  match store s !! d with
  | Some c' => if decide (c' = c) then [CAS_INV_4 d c] else []
  | None => [CAS_INV_4 d c]
  end.

Definition check_invariants (s : state) : list violation :=
  check_inv1 s ++ check_inv2 s ++ check_inv4 s.

(** The body of the two nested [for] loops (lines 98-108): the successor
    by the action write(d, c). *)
Definition write (s : state) (d c : string) : state :=
  match store s !! d with
  | Some c' =>
      if decide (c' = c)
      then State (store s) ({[ (d, c) ]} ∪ writes_ok s) (errors s)
      else State (store s) (writes_ok s) ({[ (d, c) ]} ∪ errors s)
  | None => State (<[d := c]> (store s)) ({[ (d, c) ]} ∪ writes_ok s) (errors s)
  end.

(** Lines 95-116: the successors, in the order they are enqueued. *)
Definition successors (s : state) : list state :=
  d ← DIGESTS; c ← CONTENT;
  if decide ((d, c) ∉ writes_ok s) then [write s d c] else [].

(** The variables of the [while] loop. *)
Record loop : Type := Loop {
  queue : list (state * Z);
  visited : gset state;
  violations : list violation;
  explored : nat
}.

(** One pass through the loop body (lines 60-116). *)
Definition bfs_step (bound : Z) (l : loop) : loop :=
  match queue l with
  | [] => l
  | (s, depth) :: q =>
      if decide (state_key s ∈ visited l) then
        Loop q (visited l) (violations l) (explored l)
      else
        let vis := {[ state_key s ]} ∪ visited l in
        let viol := violations l ++ check_invariants s in
        if bool_decide (viol ≠ []) || bool_decide (bound ≤ depth)%Z then
          Loop q vis viol (S (explored l))
        else
          Loop (q ++ ((λ s', (s', (depth + 1)%Z)) <$> successors s))
               vis viol (S (explored l))
  end.

(** [while queue and not violations]. *)
Definition running (l : loop) : bool :=
  bool_decide (queue l ≠ []) && bool_decide (violations l = []).

Fixpoint bfs_loop (fuel : nat) (bound : Z) (l : loop) : option loop :=
  if running l then
    match fuel with
    | O => None
    | S fuel' => bfs_loop fuel' bound (bfs_step bound l)
    end
  else Some l.

Definition start : loop := Loop [(initial, 0%Z)] ∅ [] 0.

(** What [check_cas] returns and prints: pass or fail, the violations and
    the number of states explored. *)
Record result : Type := Result {
  passed : bool;
  reported : list violation;
  states : nat
}.

Definition check_cas (fuel : nat) (bound : Z) (verbose : bool) : option result :=
  l ← bfs_loop fuel bound start;
  Some (Result (bool_decide (violations l = [])) (violations l) (explored l)).

(** The transition relation of the model and its reachable states. *)
Definition step (s s' : state) : Prop := s' ∈ successors s.

Definition reachable (s : state) : Prop := rtc step initial s.

End CAS.

(** ** Protocol model: [check_protocol] *)

Module Protocol.

Definition TERMINAL : gset string := {[ "result"; "error" ]}.

Inductive violation : Type :=
| PROTO_INV_1 (first : string)
| PROTO_INV_2 (last : string)
| PROTO_INV_4.

(** The three tests of [check_state], each giving the message it returns. *)
Definition first_frame (stream : list string) : option violation :=
  match stream with
  | f :: _ => if decide (f ≠ "start") then Some (PROTO_INV_1 f) else None
  | [] => None
  end.

Definition last_frame (stream : list string) (terminated : bool) : option violation :=
  if terminated then
    match last stream with
    | None => Some (PROTO_INV_2 "none")
    | Some f => if decide (f ∉ TERMINAL) then Some (PROTO_INV_2 f) else None
    end
  else None.

Definition event_first (stream : list string) : option violation :=
  if decide (Exists (λ '(i, f), f = "event" ∧ i = 0%nat) (imap pair stream))
  then Some PROTO_INV_4 else None.

Definition check_state (stream : list string) (terminated : bool) : option violation :=
  match first_frame stream with
  | Some err => Some err
  | None =>
      match last_frame stream terminated with
      | Some err => Some err
      | None => event_first stream
      end
  end.

(** The counter [explored] and the list [violations] that [explore] updates;
    [trace] is a ghost field listing the states on which [explore] was
    called, in order. *)
Record run : Type := Run {
  explored : nat;
  violations : list violation;
  trace : list (list string * bool)
}.

(** [explore]; [fuel] bounds the nesting of the recursive calls. *)
Fixpoint explore (fuel : nat) (bound : Z) (stream : list string)
    (terminated : bool) (depth : Z) (r : run) : option run :=
  match fuel with
  | O => None
  | S fuel' =>
      let r := Run (S (explored r)) (violations r) (trace r ++ [(stream, terminated)]) in
      match check_state stream terminated with
      | Some err => Some (Run (explored r) (violations r ++ [err]) (trace r))
      | None =>
          if terminated || bool_decide (bound ≤ depth)%Z then Some r
          else
            match stream with
            | [] => explore fuel' bound ["start"] false (depth + 1) r
            | f :: _ =>
                if decide (f = "start") then
                  if negb terminated then
                    r1 ← explore fuel' bound (stream ++ ["event"]) false (depth + 1) r;
                    r2 ← (if decide ("end" ∉ stream)
                          then explore fuel' bound (stream ++ ["end"]) false (depth + 1) r1
                          else Some r1);
                    r3 ← explore fuel' bound (stream ++ ["result"]) true (depth + 1) r2;
                    explore fuel' bound (stream ++ ["error"]) true (depth + 1) r3
                  else Some r
                else Some r
            end
      end
  end.

Record result : Type := Result {
  passed : bool;
  reported : list violation;
  states : nat
}.

Definition check_protocol (fuel : nat) (bound : Z) (verbose : bool) : option result :=
  r ← explore fuel bound [] false 0 (Run 0 [] []);
  Some (Result (bool_decide (violations r = [])) (violations r) (explored r)).

(** The actions of [explore] as a transition relation on
    (stream, terminated). *)
Inductive step : list string * bool → list string * bool → Prop :=
| step_start : step ([], false) (["start"], false)
| step_event stream :
    head stream = Some "start" → step (stream, false) (stream ++ ["event"], false)
| step_end stream :
    head stream = Some "start" → "end" ∉ stream →
    step (stream, false) (stream ++ ["end"], false)
| step_result stream :
    head stream = Some "start" → step (stream, false) (stream ++ ["result"], true)
| step_error stream :
    head stream = Some "start" → step (stream, false) (stream ++ ["error"], true).

Definition reachable (st : list string * bool) : Prop := rtc step ([], false) st.

End Protocol.

(** ** The random source

    [random.choice] and [random.shuffle] read the process-wide generator.
    The outcomes of its successive draws are a [tape]; the code threads the
    position of the next draw. Quantifying over the tape covers every
    outcome of the sampling. *)

Module Random.

Definition tape : Type := nat → nat.

(** [_randbelow(n)]: the next draw, reduced below [n]. *)
Definition randbelow (t : tape) (n : nat) (cur : nat) : nat * nat :=
  (t cur mod n, S cur).

(** [random.choice(seq)] is [seq[_randbelow(len(seq))]]; [None] stands for
    the IndexError on an empty sequence. *)
Definition choice {A} (t : tape) (seq : list A) (cur : nat) : option (A * nat) :=
  let '(k, cur') := randbelow t (length seq) cur in
  x ← seq !! k; Some (x, cur').

(** [random.shuffle(x)]: for i from len(x)-1 down to 1, draw j below i+1
    and swap x[i] and x[j]. *)
Definition swap {A} (x : list A) (i j : nat) : list A :=
  match x !! i, x !! j with
  | Some a, Some b => <[j := a]> (<[i := b]> x)
  | _, _ => x
  end.

Fixpoint shuffle_from {A} (t : tape) (i : nat) (x : list A) (cur : nat) : list A * nat :=
  match i with
  | O => (x, cur)
  | S i' =>
      let '(j, cur') := randbelow t (S i) cur in
      shuffle_from t i' (swap x i j) cur'
  end.

Definition shuffle {A} (t : tape) (x : list A) (cur : nat) : list A * nat :=
  shuffle_from t (length x - 1) x cur.

End Random.

(** A [for] loop whose body can raise: the accumulator is threaded through
    the elements and the first failure ends the loop. *)
Fixpoint foldM {A B} (f : B → A → option B) (b : B) (l : list A) : option B :=
  match l with
  | [] => Some b
  | a :: l' => b' ← f b a; foldM f b' l'
  end.

(** ** Replay model: [check_replay] *)

Module Replay.

Definition REQUESTS : list string := ["req_a"; "req_b"].
Definition DIGESTS : list string := ["d_x"; "d_y"; "d_z"].
Definition NODES : list string := ["node_1"; "node_2"; "node_3"].

Inductive violation : Type :=
| REPLAY_INV_1 (r : string) (digests_for_r : gset string)
| REPLAY_INV_3 (n r d original : string).

(** Line 216: [{r: random.choice(DIGESTS) for r in REQUESTS}]. *)
Definition sample_exec_fn (t : Random.tape) (cur : nat)
    : option (gmap string string * nat) :=
  foldM (λ '(m, cur) r, '(d, cur') ← Random.choice t DIGESTS cur;
                        Some (<[r := d]> m, cur'))
        (∅, cur) REQUESTS.

(** Lines 222-224; a failed lookup [exec_fn[r]] is the KeyError. *)
Definition execute (exec_fn : gmap string string)
    : option (gmap (string * string) string) :=
  foldM (λ results n,
           foldM (λ results r, d ← exec_fn !! r; Some (<[(n, r) := d]> results))
                 results REQUESTS)
        ∅ NODES.

(** Lines 227-230. *)
Definition replay (exec_fn : gmap string string)
    : option (list (string * string * string)) :=
  foldM (λ replay_log n,
           foldM (λ replay_log r,
                    replay_digest ← exec_fn !! r;
                    Some (replay_log ++ [(n, r, replay_digest)]))
                 replay_log REQUESTS)
        [] NODES.

(** Lines 233-238. *)
Definition check_inv1 (results : gmap (string * string) string)
    (violations : list violation) : option (list violation) :=
  foldM (λ violations r,
           ds ← mapM (λ n, results !! (n, r)) NODES;
           let digests_for_r : gset string := list_to_set ds in
           if decide (1 < size digests_for_r)
           then Some (violations ++ [REPLAY_INV_1 r digests_for_r])
           else Some violations)
        violations REQUESTS.

(** Lines 241-245. *)
Definition check_inv3 (results : gmap (string * string) string)
    (replay_log : list (string * string * string))
    (violations : list violation) : option (list violation) :=
  foldM (λ violations '(n, r, d),
           original ← results !! (n, r);
           if decide (original ≠ d)
           then Some (violations ++ [REPLAY_INV_3 n r d original])
           else Some violations)
        violations replay_log.

(** The body of the trial loop after the function is chosen. *)
Definition trial (exec_fn : gmap string string) (violations : list violation)
    : option (list violation) :=
  results ← execute exec_fn;
  replay_log ← replay exec_fn;
  violations ← check_inv1 results violations;
  check_inv3 results replay_log violations.

(** The state of the trial loop; [sampled] is a ghost field listing the
    function chosen by each trial, in order. *)
Record run : Type := Run {
  cursor : nat;
  violations : list violation;
  sampled : list (gmap string string)
}.

Definition trial_step (t : Random.tape) (r : run) : option run :=
  '(exec_fn, cur) ← sample_exec_fn t (cursor r);
  violations ← trial exec_fn (violations r);
  Some (Run cur violations (sampled r ++ [exec_fn])).

(** [for trial in range(n)]. *)
Fixpoint trials (t : Random.tape) (n : nat) (r : run) : option run :=
  match n with
  | O => Some r
  | S n' => r' ← trial_step t r; trials t n' r'
  end.

(** What [check_replay] returns and prints: [printed_trials] is the number
    in the PASS line; [functions] is the ghost list of sampled functions. *)
Record result : Type := Result {
  passed : bool;
  reported : list violation;
  printed_trials : Z;
  functions : list (gmap string string)
}.

Definition check_replay (t : Random.tape) (bound : Z) (verbose : bool) : option result :=
  r ← trials t (Z.to_nat (bound `min` 20)) (Run 0 [] []);
  Some (Result (bool_decide (violations r = [])) (violations r) bound (sampled r)).

End Replay.

(** ** SHA-256: [hashlib.sha256(s.encode()).hexdigest()]

    The hash function the Determinism check calls (line 284), after
    FIPS 180-4: words are numbers below 2^32, the message is a list of
    bytes. *)

Module SHA256.

(** [str.encode()]: the UTF-8 bytes of the characters. *)
Fixpoint encode (s : string) : list N :=
  match s with
  | EmptyString => []
  | String c s' =>
      let n := Ascii.N_of_ascii c in
      (if (n <? 128)%N then [n] else [192 + n / 64; 128 + n mod 64]%N) ++ encode s'
  end.

Definition add (x y : N) : N := ((x + y) mod 2 ^ 32)%N.

Definition rotr (n x : N) : N :=
  N.lor (N.shiftr x n) (N.shiftl x (32 - n) mod 2 ^ 32)%N.

Definition Ch (x y z : N) : N :=
  N.lxor (N.land x y) (N.land (N.lxor x 0xffffffff) z).

Definition Maj (x y z : N) : N :=
  N.lxor (N.lxor (N.land x y) (N.land x z)) (N.land y z).

Definition Sigma0 (x : N) : N := N.lxor (N.lxor (rotr 2 x) (rotr 13 x)) (rotr 22 x).
Definition Sigma1 (x : N) : N := N.lxor (N.lxor (rotr 6 x) (rotr 11 x)) (rotr 25 x).
Definition sigma0 (x : N) : N := N.lxor (N.lxor (rotr 7 x) (rotr 18 x)) (N.shiftr x 3).
Definition sigma1 (x : N) : N := N.lxor (N.lxor (rotr 17 x) (rotr 19 x)) (N.shiftr x 10).

(** The first [n] primes from 2 on, searched below [m]. *)
Definition primes (n m : nat) : list N :=
  N.of_nat <$>
    take n (filter (λ p, forallb (λ d, negb (p mod d =? 0)%nat) (seq 2 (p - 2)))
                   (seq 2 m)).

(** The largest [r] with [r ^ 3 <= x], one bit after the other from bit
    [n - 1] down. *)
Fixpoint cube_root (n : nat) (x r : N) : N :=
  match n with
  | O => r
  | S n' =>
      let r' := (r + 2 ^ N.of_nat n')%N in
      cube_root n' x (if (r' ^ 3 <=? x)%N then r' else r)
  end.

(** The round constants: the first 32 bits of the fractional parts of the
    cube roots of the first 64 primes. *)
Definition K : list N :=
  Eval vm_compute in
    (λ p, cube_root 40 (p * 2 ^ 96) 0 mod 2 ^ 32)%N <$> primes 64 312.

(** The initial hash value: the first 32 bits of the fractional parts of
    the square roots of the first 8 primes. *)
Definition H0 : list N :=
  Eval vm_compute in (λ p, N.sqrt (p * 2 ^ 64) mod 2 ^ 32)%N <$> primes 8 20.

(** The big-endian bytes of a number, [n] of them, and back. *)
Fixpoint to_bytes (n : nat) (x : N) : list N :=
  match n with
  | O => []
  | S n' => to_bytes n' (x / 256)%N ++ [(x mod 256)%N]
  end.

Definition of_bytes (l : list N) : N := foldl (λ acc b, acc * 256 + b)%N 0%N l.

(** Padding: the bit 1, zeros up to 56 modulo 64 bytes, and the length of
    the message in bits on 8 bytes. *)
Definition pad (msg : list N) : list N :=
  let len := length msg in
  msg ++ [128%N] ++ replicate ((119 - len mod 64) mod 64) 0%N
      ++ to_bytes 8 (8 * N.of_nat len).

(** Cutting a list into pieces of [n] elements. *)
Fixpoint pieces {A} (fuel n : nat) (l : list A) : list (list A) :=
  match fuel, l with
  | S fuel', _ :: _ => take n l :: pieces fuel' n (drop n l)
  | _, _ => []
  end.

(** The message schedule, the latest word first: [n] more words. *)
Fixpoint schedule (n : nat) (w : list N) : list N :=
  match n with
  | O => w
  | S n' =>
      let wt := add (add (sigma1 (nth 1 w 0%N)) (nth 6 w 0%N))
                    (add (sigma0 (nth 14 w 0%N)) (nth 15 w 0%N)) in
      schedule n' (wt :: w)
  end.

Definition round (v : list N) (kw : N * N) : list N :=
  match v with
  | [a; b; c; d; e; f; g; h] =>
      let t1 := add (add (add h (Sigma1 e)) (add (Ch e f g) kw.1)) kw.2 in
      let t2 := add (Sigma0 a) (Maj a b c) in
      [add t1 t2; a; b; c; add d t1; e; f; g]
  | _ => v
  end.

Definition compress (h : list N) (block : list N) : list N :=
  let w := reverse (schedule 48 (reverse (of_bytes <$> pieces 16 4 block))) in
  zip_with add h (foldl round h (zip K w)).

Definition digest (msg : list N) : list N :=
  let padded := pad msg in
  foldl compress H0 (pieces (length padded) 64 padded) ≫= to_bytes 4.

Definition hex_digit (x : N) : string :=
  String.substring (N.to_nat x) 1 "0123456789abcdef".

Definition hex (bytes : list N) : string :=
  foldr (λ b s, hex_digit (b / 16) +:+ hex_digit (b mod 16) +:+ s) "" bytes.

Definition sha256_hexdigest (s : string) : string := hex (digest (encode s)).

End SHA256.

(** ** Determinism model: [check_determinism] *)

Module Determinism.

Definition DOMAIN_PREFIXES : list string := ["req:"; "res:"; "cas:"].
Definition INPUTS : list string := ["input_a"; "input_b"; "input_c"; ""].

Inductive violation : Type :=
| DET_INV_1 (p i d previous : string)
| DET_INV_2.

Section with_hash.

(** [hashlib.sha256(s.encode()).hexdigest()], a function of the standard
    library that the checker calls: a parameter of the definitions below,
    which the checker always takes to be [SHA256.sha256_hexdigest]. *)
Variable sha256_hexdigest : string → string.

(** [simulate_hash]: the memo table [hash_fn] is threaded. *)
Definition simulate_hash (prefix inp : string) (hash_fn : gmap (string * string) string)
    : string * gmap (string * string) string :=
  let key := (prefix, inp) in
  match hash_fn !! key with
  | Some d => (d, hash_fn)
  | None =>
      let raw := sha256_hexdigest (prefix +:+ inp) in
      let d := String.substring 0 16 raw in
      (d, <[key := d]> hash_fn)
  end.

(** [itertools.product(DOMAIN_PREFIXES, INPUTS)]. *)
Definition product_ops : list (string * string) :=
  p ← DOMAIN_PREFIXES; i ← INPUTS; [(p, i)].

(** The variables of the loop of hash calls (lines 291-294). *)
Record calls : Type := Calls {
  cursor : nat;
  hash_fn : gmap (string * string) string;
  hash_calls : list (string * string * string)
}.

Definition call_step (t : Random.tape) (ops : list (string * string)) (c : calls)
    : option calls :=
  '((prefix, inp), cur) ← Random.choice t ops (cursor c);
  let '(d, hash_fn') := simulate_hash prefix inp (hash_fn c) in
  Some (Calls cur hash_fn' (hash_calls c ++ [(prefix, inp, d)])).

Fixpoint call_loop (t : Random.tape) (ops : list (string * string)) (n : nat) (c : calls)
    : option calls :=
  match n with
  | O => Some c
  | S n' => c' ← call_step t ops c; call_loop t ops n' c'
  end.

(** Lines 297-306: the table [seen] and the violations are threaded. *)
Definition check_inv1 (hash_calls : list (string * string * string))
    (violations : list violation) : list violation :=
  (foldl (λ '(seen, violations) '(p, i, d),
            let key : string * string := (p, i) in
            match (seen : gmap (string * string) string) !! key with
            | Some previous =>
                if decide (previous ≠ d)
                then (seen, violations ++ [DET_INV_1 p i d previous])
                else (seen, violations)
            | None => (<[key := d]> seen, violations)
            end)
         (∅, violations) hash_calls).2.

(** [{d for (p, i, d) in hash_calls if p == prefix and i == "input_a"}]. *)
Definition digests_of (prefix : string) (hash_calls : list (string * string * string))
    : gset string :=
  list_to_set
    ('(p, i, d) ← hash_calls;
     if decide (p = prefix ∧ i = "input_a") then [d] else []).

(** Lines 309-314. *)
Definition check_inv2 (hash_calls : list (string * string * string))
    (violations : list violation) : list violation :=
  let req_digests := digests_of "req:" hash_calls in
  let cas_digests := digests_of "cas:" hash_calls in
  if decide (req_digests ∩ cas_digests ≠ ∅)
  then violations ++ [DET_INV_2] else violations.

(** What [check_determinism] returns and prints; [recorded] is the ghost
    copy of [hash_calls]. *)
Record result : Type := Result {
  passed : bool;
  reported : list violation;
  calls_made : nat;
  recorded : list (string * string * string)
}.

Definition check_determinism (t : Random.tape) (bound : Z) (verbose : bool)
    : option result :=
  let '(ops, cur) := Random.shuffle t product_ops 0 in
  c ← call_loop t ops (Z.to_nat bound) (Calls cur ∅ []);
  let violations := check_inv2 (hash_calls c) (check_inv1 (hash_calls c) []) in
  Some (Result (bool_decide (violations = [])) violations
               (length (hash_calls c)) (hash_calls c)).

End with_hash.

End Determinism.

(** ** PolicyCompiler model: [check_policy_compiler] *)

Module Policy.

(** The value [json.load] returns: None, bool, int, str, list, or dict
    (given by its items, one per key, in insertion order). Numbers with a
    fraction are not part of the model. *)
Local Unset Elimination Schemes.
Inductive json : Type :=
| JNull
| JBool (b : bool)
| JInt (z : Z)
| JStr (s : string)
| JArr (l : list json)
| JObj (items : list (string * json)).
Local Set Elimination Schemes.

(** The hashable values among them, up to Python's [==]: [True] and [False]
    are the integers 1 and 0. *)
Inductive atom : Type :=
| ANone
| AInt (z : Z)
| AStr (s : string).

Global Instance atom_eq_dec : EqDecision atom.
Proof. solve_decision. Defined.

Global Instance atom_countable : Countable atom.
Proof.
  refine (inj_countable'
            (λ a, match a with
                  | ANone => inl ()
                  | AInt z => inr (inl z)
                  | AStr s => inr (inr s)
                  end)
            (λ x, match x with
                  | inl _ => ANone
                  | inr (inl z) => AInt z
                  | inr (inr s) => AStr s
                  end) _).
  by intros [].
Defined.

(** The exceptions the code can raise on a loaded value. *)
Inductive exn : Type := AttributeError | TypeError | KeyError.

Inductive res (A : Type) : Type :=
| Ok (a : A)
| Raise (e : exn).
Arguments Ok {A} a.
Arguments Raise {A} e.

Definition bind {A B} (x : res A) (k : A → res B) : res B :=
  match x with
  | Ok a => k a
  | Raise e => Raise e
  end.

Notation "x ←! e ; k" := (bind e (λ x, k))
  (at level 20, e at level 100, k at level 200, only parsing, right associativity).

Fixpoint mapR {A B} (f : A → res B) (l : list A) : res (list B) :=
  match l with
  | [] => Ok []
  | a :: l' => b ←! f a; bs ←! mapR f l'; Ok (b :: bs)
  end.

Fixpoint foldR {A B} (f : B → A → res B) (b : B) (l : list A) : res B :=
  match l with
  | [] => Ok b
  | a :: l' => b' ←! f b a; foldR f b' l'
  end.

(** The characters of a string, each as a string of length one (one
    [ascii] is one character, so this is what iterating over a [str] of
    characters up to U+00FF yields). *)
Fixpoint chars (s : string) : list string :=
  match s with
  | EmptyString => []
  | String c s' => String c EmptyString :: chars s'
  end.

(** Iterating over a value: the elements of a list, the characters of a
    string, the keys of a dict; anything else is not iterable. *)
Definition py_iter (v : json) : res (list json) :=
  match v with
  | JArr l => Ok l
  | JStr s => Ok (JStr <$> chars s)
  | JObj items => Ok (JStr <$> items.*1)
  | _ => Raise TypeError
  end.

(** [hash(v)]: lists and dicts are unhashable. *)
Definition py_hash (v : json) : res atom :=
  match v with
  | JNull => Ok ANone
  | JBool b => Ok (AInt (if b then 1 else 0))
  | JInt z => Ok (AInt z)
  | JStr s => Ok (AStr s)
  | _ => Raise TypeError
  end.

(** [set(v)]. *)
Definition py_set (v : json) : res (gset atom) :=
  l ←! py_iter v; as_ ←! mapR py_hash l; Ok (list_to_set as_).

(** The value a dict holds for a key, if any. *)
Fixpoint dict_lookup (key : string) (items : list (string * json)) : option json :=
  match items with
  | [] => None
  | (k, v) :: items' => if decide (k = key) then Some v else dict_lookup key items'
  end.

(** [data.get(key, default)]: only a dict has the method. *)
Definition get (data : json) (key : string) (default : json) : res json :=
  match data with
  | JObj items =>
      Ok (match dict_lookup key items with
          | Some v => v
          | None => default
          end)
  | _ => Raise AttributeError
  end.

(** The definitions the check works on. [POLICIES] is kept as loaded: it is
    only iterated later. *)
Record config : Type := Config {
  POLICIES : json;
  COMPILER_MAP : gmap atom (gset atom);
  CONFLICTS : list (gset atom)
}.

(** Lines 345-354, on the value read from the file. *)
Definition load (data : json) : res config :=
  POLICIES ←! get data "policies" (JArr []);
  raw_map ←! get data "map" (JObj []);
  COMPILER_MAP ←! match raw_map with
                   | JObj items =>
                       foldR (λ m '(k, v), s ←! py_set v; Ok (<[AStr k := s]> m)) ∅ items
                   | _ => Raise AttributeError
                   end;
  raw_conflicts ←! get data "conflicts" (JArr []);
  cs ←! py_iter raw_conflicts;
  CONFLICTS ←! mapR py_set cs;
  Ok (Config POLICIES COMPILER_MAP CONFLICTS).

(** Lines 356-359. *)
Definition builtin : config :=
  Config (JArr [JStr "p1"; JStr "p2"; JStr "p3"])
         {[ AStr "p1" := {[ AStr "c1" ]};
            AStr "p2" := {[ AStr "c2" ]};
            AStr "p3" := {[ AStr "c3" ]} ]}
         [ {[ AStr "c1"; AStr "c2" ]} ].

Inductive violation : Type :=
| POLICY_INV_1 (p : atom)
| POLICY_INV_2 (c1 c2 : atom).

(** [len(v)]. *)
Definition py_len (v : json) : res nat :=
  match v with
  | JArr l => Ok (length l)
  | JStr s => Ok (String.length s)
  | JObj items => Ok (length items)
  | _ => Raise TypeError
  end.

(** [itertools.combinations(pool, r)], in the order it yields. *)
Fixpoint combinations {A} (pool : list A) (r : nat) : list (list A) :=
  match r with
  | O => [[]]
  | S r' =>
      match pool with
      | [] => []
      | x :: pool' => ((x ::.) <$> combinations pool' r') ++ combinations pool' r
      end
  end.

Section subset.

Variable cfg : config.

(** Lines 372-374: the Compile action. *)
Definition generate (active : gset atom) : res (gset atom) :=
  foldR (λ generated_constraints p,
           match COMPILER_MAP cfg !! p with
           | Some cs => Ok (generated_constraints ∪ cs)
           | None => Raise KeyError
           end)
        ∅ (elements active).

(** Lines 377-381. *)
Definition has_conflict (generated_constraints : gset atom) : bool :=
  existsb (λ c1,
     existsb (λ c2, bool_decide (c1 ≠ c2) && bool_decide ({[ c1; c2 ]} ∈ CONFLICTS cfg))
             (elements generated_constraints))
          (elements generated_constraints).

(** Lines 386-390. *)
Definition check_inv1 (active generated_constraints : gset atom)
    (violations : list violation) : res (list violation) :=
  foldR (λ violations p,
           match COMPILER_MAP cfg !! p with
           | Some cs =>
               if decide (cs ⊆ generated_constraints) then Ok violations
               else Ok (violations ++ [POLICY_INV_1 p])
           | None => Raise KeyError
           end)
        violations (elements active).

(** Lines 393-398. *)
Definition check_inv2 (generated_constraints : gset atom)
    (violations : list violation) : list violation :=
  violations ++
  (c1 ← elements generated_constraints;
   c2 ← elements generated_constraints;
   if decide ({[ c1; c2 ]} ∈ CONFLICTS cfg) then [POLICY_INV_2 c1 c2] else []).

(** The body of the loop over the subsets (lines 369-398). *)
Definition check_subset (violations : list violation) (subset : list json)
    : res (list violation) :=
  ps ←! mapR py_hash subset;
  let active : gset atom := list_to_set ps in
  generated_constraints ←! generate active;
  if has_conflict generated_constraints then Ok violations
  else
    violations ←! check_inv1 active generated_constraints violations;
    Ok (check_inv2 generated_constraints violations).

(** The subsets in the order of the two [for] loops (lines 367-368). *)
Definition subsets (pool : list json) (n : nat) : list (list json) :=
  r ← seq 0 (n + 1); combinations pool r.

End subset.

(** What [check_policy_compiler] returns and prints; [enumerated] is the
    ghost list of the subsets the loops went through. *)
Record result : Type := Result {
  passed : bool;
  reported : list violation;
  printed_policies : nat;
  enumerated : list (list json)
}.

(** [policy_file] is given by the value loaded from it. *)
Definition check_policy_compiler (bound : Z) (verbose : bool)
    (policy_file : option json) : res result :=
  cfg ←! match policy_file with
         | Some data => load data
         | None => Ok builtin
         end;
  n ←! py_len (POLICIES cfg);
  pool ←! py_iter (POLICIES cfg);
  violations ←! foldR (check_subset cfg) [] (subsets pool n);
  Ok (Result (bool_decide (violations = [])) violations n (subsets pool n)).

End Policy.

(** ** The driver: [main] *)

Module Main.

(** The parsed command line: --spec, --bound, --policy-file (given by the
    value loaded from the file) and --verbose. *)
Record args : Type := Args {
  spec : string;
  bound : Z;
  policy_file : option Policy.json;
  verbose : bool
}.

(** Line 418: the values argparse accepts for --spec. *)
Definition choices : list string := ["CAS"; "Protocol"; "Replay"; "Determinism"; "all"].

(** How the process ends: argparse rejects the command line (exit status
    2), [sys.exit(code)] after the summary of the (name, ok) pairs, or an
    exception that no handler catches, raised after the given pairs were
    collected. *)
Inductive outcome : Type :=
| Usage
| Exit (code : Z) (results : list (string * bool))
| Uncaught (e : Policy.exn) (results : list (string * bool)).

(** The tape as the generator presents it once [k] draws are consumed. *)
Definition advance (t : Random.tape) (k : nat) : Random.tape := λ n, t (k + n)%nat.

(** Lines 457-468. *)
Definition finish (results : list (string * bool)) : outcome :=
  let all_pass := forallb snd results in
  Exit (if all_pass then 0 else 1) results.

Section run.

Variable sha256_hexdigest : string → string.
Variable t : Random.tape.
Variable fuel : nat.

(** Lines 434-468. [fuel] bounds the passes of the CAS loop and the depth
    of the recursion of the Protocol check. The Replay check draws twice
    per trial (line 216), and the Determinism check goes on from there on
    the one generator. *)
Definition main (a : args) : option outcome :=
  if decide (spec a ∈ choices) then
    results ←
      (if decide (spec a ∈ ["CAS"; "all"]) then
         r ← CAS.check_cas fuel (bound a) (verbose a);
         Some [("CAS", CAS.passed r)]
       else Some []);
    results ←
      (if decide (spec a ∈ ["Protocol"; "all"]) then
         r ← Protocol.check_protocol fuel (bound a) (verbose a);
         Some (results ++ [("Protocol", Protocol.passed r)])
       else Some results);
    '(results, drawn) ←
      (if decide (spec a ∈ ["Replay"; "all"]) then
         r ← Replay.check_replay t (bound a) (verbose a);
         Some (results ++ [("Replay", Replay.passed r)],
               2 * length (Replay.functions r))%nat
       else Some (results, 0%nat));
    results ←
      (if decide (spec a ∈ ["Determinism"; "all"]) then
         r ← Determinism.check_determinism sha256_hexdigest (advance t drawn)
                (bound a) (verbose a);
         Some (results ++ [("Determinism", Determinism.passed r)])
       else Some results);
    if decide (spec a ∈ ["PolicyCompiler"; "all"]) then
      match Policy.check_policy_compiler (bound a) (verbose a) (policy_file a) with
      | Policy.Ok r => Some (finish (results ++ [("PolicyCompiler", Policy.passed r)]))
      | Policy.Raise e => Some (Uncaught e results)
      end
    else Some (finish results)
  else Some Usage.

End run.

End Main.

(** * Notions used to state the properties *)

(** ** CAS: the two facts the model keeps about its bookkeeping sets. *)

Definition writes_recorded (s : CAS.state) : Prop :=
  ∀ d c, (d, c) ∈ CAS.writes_ok s → CAS.store s !! d = Some c.

Definition errors_accurate (s : CAS.state) : Prop :=
  ∀ d c, (d, c) ∈ CAS.errors s → ∃ c', CAS.store s !! d = Some c' ∧ c' ≠ c.

(** The states the search visits when the bound does not cut it short, and
    the number of passes through the loop still possible: every pass either
    drops a queue entry or visits a new state and adds at most four. *)
Definition closure : gset CAS.state :=
  match CAS.bfs_loop 200 30 CAS.start with
  | Some l => CAS.visited l
  | None => ∅
  end.

Definition passes_left (l : CAS.loop) : nat :=
  length (CAS.queue l) + 5 * (size closure - size (CAS.visited l)).

(** ** Protocol *)

(** The shape the two stream invariants ask for. *)
Definition well_formed (st : list string * bool) : Prop :=
  (st.1 = [] ∨ head st.1 = Some "start") ∧
  (st.2 = true → ∃ f, last st.1 = Some f ∧ f ∈ Protocol.TERMINAL).

(** The recursive calls [explore] makes on a state that passed
    [check_state], in order. *)
Definition actions (stream : list string) : list (list string * bool) :=
  match stream with
  | [] => [(["start"], false)]
  | f :: _ =>
      if decide (f = "start") then
        [(stream ++ ["event"], false)] ++
        (if decide ("end" ∉ stream) then [(stream ++ ["end"], false)] else []) ++
        [(stream ++ ["result"], true); (stream ++ ["error"], true)]
      else []
  end.

(** [r'] continues [r]: no new violation, and the states visited in between
    all satisfy [P]. *)
Definition grows (P : list string * bool → Prop) (r r' : Protocol.run) : Prop :=
  Protocol.violations r' = Protocol.violations r ∧
  ∃ tr, Protocol.trace r' = Protocol.trace r ++ tr ∧ Forall P tr ∧
        Protocol.explored r' = (Protocol.explored r + length tr)%nat.

(** ** Replay *)

(** The digest the draw at position [cur] selects. *)
Definition drawn (t : Random.tape) (cur : nat) : string :=
  default "" (Replay.DIGESTS !! (t cur mod 3)%nat).

(** The function a trial samples when its first draw is at [cur]. *)
Definition sampled_at (t : Random.tape) (cur : nat) : gmap string string :=
  <["req_b" := drawn t (S cur)]> (<["req_a" := drawn t cur]> ∅).

(** The statement about the trial count as the specification words it:
    bound [b] gives [b] trials and [b] is what is printed. *)
Definition replay_runs_bound_trials (t : Random.tape) (b : Z) : Prop :=
  ∃ r, Replay.check_replay t b false = Some r ∧
       length (Replay.functions r) = Z.to_nat b ∧
       Replay.printed_trials r = b.

(** ** Determinism *)

(** [raw[:16]] of the hash of the prefixed input. *)
Definition digest_of (sha256_hexdigest : string → string) (prefix inp : string) : string :=
  String.substring 0 16 (sha256_hexdigest (prefix +:+ inp)).

(** Every digest in a memo table, or in a list of recorded calls, is the
    truncated hash of its prefixed input. *)
Definition memo_ok (sha256_hexdigest : string → string)
    (hash_fn : gmap (string * string) string) : Prop :=
  ∀ p i d, hash_fn !! (p, i) = Some d → d = digest_of sha256_hexdigest p i.

Definition calls_ok (sha256_hexdigest : string → string)
    (hash_calls : list (string * string * string)) : Prop :=
  ∀ p i d, (p, i, d) ∈ hash_calls → d = digest_of sha256_hexdigest p i.


(** ** PolicyCompiler *)

(** Having a key, and the statement about malformed definitions as the
    specification words it: a definition that lacks one of the three keys
    makes the check raise (whatever the exception is called). *)
Definition has_key (data : Policy.json) (key : string) : Prop :=
  ∃ items, data = Policy.JObj items ∧ key ∈ items.*1.

Definition rejects_malformed (data : Policy.json) : Prop :=
  ¬ (has_key data "policies" ∧ has_key data "map" ∧ has_key data "conflicts") →
  ∃ e, Policy.check_policy_compiler 30 false (Some data) = Policy.Raise e.

(** A definition completed with the value [get] falls back on for each key
    it lacks. *)
Definition with_default (key : string) (default : Policy.json)
    (items : list (string * Policy.json)) : list (string * Policy.json) :=
  if decide (key ∈ items.*1) then items else items ++ [(key, default)].

Definition with_defaults (items : list (string * Policy.json))
    : list (string * Policy.json) :=
  with_default "conflicts" (Policy.JArr [])
    (with_default "map" (Policy.JObj [])
       (with_default "policies" (Policy.JArr []) items)).

(** ** CAS: the invariants as predicates, the depth of the search, and
    the states within a number of writes *)

(** The three tests of the CAS invariant evaluator as predicates. *)
Definition cas_invariants (s : CAS.state) : Prop :=
  (∀ d c c', (d, c) ∈ CAS.writes_ok s → CAS.store s !! d = Some c' → c' = c) ∧
  (∀ d c, (d, c) ∈ CAS.writes_ok s → (d, c) ∉ CAS.errors s →
          CAS.store s !! d = Some c) ∧
  (∀ d c, (d, c) ∈ CAS.errors s → ∃ c', CAS.store s !! d = Some c' ∧ c' ≠ c).

(** Along the search with bound 5, every entry taken from the queue is
    either already visited or at a depth below 5. *)
Fixpoint shallow (fuel : nat) (l : CAS.loop) : bool :=
  if CAS.running l then
    match fuel with
    | O => true
    | S fuel' =>
        match CAS.queue l with
        | (s, depth) :: _ =>
            bool_decide (CAS.state_key s ∈ CAS.visited l) || bool_decide (depth < 5)%Z
        | [] => true
        end && shallow fuel' (CAS.bfs_step 5 l)
    end
  else true.

(** The states at most [n] writes away from the empty initial state. *)
Fixpoint within (n : nat) : gset CAS.state :=
  match n with
  | O => {[ CAS.initial ]}
  | S m => let w := within m in w ∪ list_to_set (elements w ≫= CAS.successors)
  end.

(** ** Protocol: the shape of the streams, and the number of calls *)

(** The streams the actions can build: the empty one, or 'start' followed
    by 'event' and 'end' tags with at most one 'end', closed by 'result' or
    'error' exactly when terminated. *)
Definition stream_shape (st : list string * bool) : Prop :=
  st = ([], false) ∨
  ∃ body closing,
    st.1 = "start" :: body ++ closing ∧
    Forall (λ f, f = "event" ∨ f = "end") body ∧
    (length (filter (λ f, f = "end") body) ≤ 1)%nat ∧
    ((st.2 = false ∧ closing = []) ∨
     (st.2 = true ∧ (closing = ["result"] ∨ closing = ["error"]))).

(** The number of calls of [explore] below a started, unterminated stream
    with [n] levels left: with an 'end' already in the stream, and without. *)
Definition count_end (n : nat) : nat := 1 + 3 * n.

Fixpoint count_noend (n : nat) : nat :=
  match n with
  | O => 1
  | S m => 1 + count_noend m + count_end m + 2
  end.

(** ** PolicyCompiler: definition files of the documented shape *)

(** The definitions a run of the PolicyCompiler check works on. *)
Definition config_of (policy_file : option Policy.json) : Policy.res Policy.config :=
  match policy_file with
  | Some data => Policy.load data
  | None => Policy.Ok Policy.builtin
  end.

(** A definition file of the documented shape: policy names, a map from
    policy name to constraint names, and groups of conflicting constraint
    names; its JSON value, and the definitions it stands for. *)
Record definition : Type := Def {
  def_policies : list string;
  def_map : list (string * list string);
  def_conflicts : list (list string)
}.

Definition strs (l : list string) : Policy.json := Policy.JArr (Policy.JStr <$> l).

Definition render (d : definition) : Policy.json :=
  Policy.JObj
    [("policies", strs (def_policies d));
     ("map", Policy.JObj ((λ kv, (kv.1, strs kv.2)) <$> def_map d));
     ("conflicts", Policy.JArr (strs <$> def_conflicts d))].

Definition atoms (l : list string) : gset Policy.atom :=
  list_to_set (Policy.AStr <$> l).

Definition compiled (d : definition) : Policy.config :=
  Policy.Config
    (strs (def_policies d))
    (foldl (λ m kv, <[Policy.AStr kv.1 := atoms kv.2]> m) ∅ (def_map d))
    (atoms <$> def_conflicts d).

(** The lists [itertools.combinations] yields for r = 0 .. len(pool), in
    order, for a pool of any type. *)
Definition subsequences {A} (pool : list A) : list (list A) :=
  seq 0 (length pool + 1) ≫= Policy.combinations pool.

(** * Properties *)

(** A list comprehension is empty exactly when every element contributes
    nothing. *)
Lemma bind_nil_Forall {A B} (f : A → list B) (l : list A) :
  (x ← l; f x) = [] ↔ Forall (λ x, f x = []) l.
Proof.
  induction l as [|a l IH]; simpl.
  - split; [constructor | done].
  - rewrite Forall_cons. split.
    + intros [Ha Hl]%app_eq_nil. split; [done | by apply IH].
    + intros [Ha Hl]. rewrite Ha. simpl. by apply IH.
Qed.

(** ** CAS *)

Section cas_facts.
Import CAS.

Lemma elem_of_successors s s' :
  s' ∈ successors s ↔
  ∃ d c, d ∈ DIGESTS ∧ c ∈ CONTENT ∧ ((d, c) ∉ writes_ok s) ∧ s' = write s d c.
Proof.
  unfold successors. rewrite list_elem_of_bind. split.
  - intros (d & (c & Hs & Hc)%list_elem_of_bind & Hd).
    case_decide; [|by apply elem_of_nil in Hs].
    apply list_elem_of_singleton in Hs. eauto 10.
  - intros (d & c & Hd & Hc & Hw & ->). exists d. split; [|done].
    apply list_elem_of_bind. exists c. split; [|done].
    rewrite decide_True by done. by apply list_elem_of_singleton.
Qed.

(** A write never changes the content stored at a digest that is present. *)
Lemma write_store_preserved s d c d0 c0 :
  store s !! d0 = Some c0 → store (write s d c) !! d0 = Some c0.
Proof.
  intros H0. unfold write. destruct (store s !! d) as [c'|] eqn:Hd.
  - by case_decide.
  - simpl. rewrite lookup_insert_ne; [done | congruence].
Qed.

Lemma step_store_preserved s s' d0 c0 :
  step s s' → store s !! d0 = Some c0 → store s' !! d0 = Some c0.
Proof.
  intros (d & c & _ & _ & _ & ->)%elem_of_successors. apply write_store_preserved.
Qed.

Lemma rtc_store_preserved s s' d0 c0 :
  rtc step s s' → store s !! d0 = Some c0 → store s' !! d0 = Some c0.
Proof. induction 1; eauto using step_store_preserved. Qed.

Lemma write_writes_recorded s d c : writes_recorded s → writes_recorded (write s d c).
Proof.
  intros Hs d0 c0. unfold write. destruct (store s !! d) as [c'|] eqn:Hd.
  - case_decide as Hc; simpl; [|by apply Hs].
    intros [[= -> ->]%elem_of_singleton | ?]%elem_of_union; [congruence | by apply Hs].
  - simpl. intros [[= -> ->]%elem_of_singleton | Hin]%elem_of_union.
    + by rewrite lookup_insert_eq.
    + rewrite lookup_insert_ne; [by apply Hs|].
      intros ->. apply Hs in Hin. congruence.
Qed.

Lemma write_errors_accurate s d c : errors_accurate s → errors_accurate (write s d c).
Proof.
  intros Hs d0 c0 Hin.
  assert (Hold : (d0, c0) ∈ errors s →
                 ∃ c', store (write s d c) !! d0 = Some c' ∧ c' ≠ c0).
  { intros (c' & Hc' & Hne)%Hs. exists c'. eauto using write_store_preserved. }
  revert Hin. unfold write in *. destruct (store s !! d) as [c'|] eqn:Hd.
  - case_decide as Hc; simpl in *; [done|].
    intros [[= -> ->]%elem_of_singleton | ?]%elem_of_union; [eauto | by apply Hold].
  - simpl in *. done.
Qed.

Lemma reachable_writes_recorded s : reachable s → writes_recorded s.
Proof.
  unfold reachable. revert s. apply rtc_ind_r.
  - by intros ? ? ?%not_elem_of_empty.
  - intros s0 s _ (d & c & _ & _ & _ & ->)%elem_of_successors IH.
    by apply write_writes_recorded.
Qed.

Lemma reachable_errors_accurate s : reachable s → errors_accurate s.
Proof.
  unfold reachable. revert s. apply rtc_ind_r.
  - by intros ? ? ?%not_elem_of_empty.
  - intros s0 s _ (d & c & _ & _ & _ & ->)%elem_of_successors IH.
    by apply write_errors_accurate.
Qed.

(** The invariant evaluator finds nothing at a reachable state. *)
Lemma reachable_check_invariants s : reachable s → check_invariants s = [].
Proof.
  intros Hr. pose proof (reachable_writes_recorded s Hr) as Hw.
  pose proof (reachable_errors_accurate s Hr) as He.
  unfold check_invariants, check_inv1, check_inv2, check_inv4.
  rewrite !app_nil, !bind_nil_Forall, !Forall_forall. repeat split.
  - intros [d c] Hin%elem_of_elements. rewrite (Hw _ _ Hin).
    by rewrite decide_False by naive_solver.
  - intros [d c] Hin%elem_of_elements. rewrite (Hw _ _ Hin).
    case_decide; [|done]. by rewrite decide_False by naive_solver.
  - intros [d c] Hin%elem_of_elements. destruct (He _ _ Hin) as (c' & -> & Hne).
    by rewrite decide_False.
Qed.

Lemma step_write s d c :
  d ∈ DIGESTS → c ∈ CONTENT → (d, c) ∉ writes_ok s → step s (write s d c).
Proof. intros. apply elem_of_successors. eauto 10. Qed.

(** The loop is over as soon as a violation is recorded. *)
Lemma bfs_loop_stops fuel bound l :
  violations l ≠ [] → bfs_loop fuel bound l = Some l.
Proof.
  intros Hv. destruct fuel; simpl; unfold running;
    by rewrite (bool_decide_eq_false_2 (violations l = [])), andb_false_r.
Qed.

(** Popping a violating state that is not yet visited. *)
Lemma bfs_step_violation bound s depth q vis n :
  state_key s ∉ vis → check_invariants s ≠ [] →
  bfs_step bound (Loop ((s, depth) :: q) vis [] n)
  = Loop q ({[ state_key s ]} ∪ vis) (check_invariants s) (S n).
Proof.
  intros Hvis Hbad. unfold bfs_step. simpl.
  rewrite decide_False by done.
  by rewrite (bool_decide_eq_true_2 (check_invariants s ≠ [])).
Qed.

(** As long as the queue holds reachable states only, the loop records no
    violation: the search from the initial state can only end with a pass. *)
Lemma bfs_step_reachable bound l :
  Forall (λ e, reachable e.1) (queue l) → violations l = [] →
  Forall (λ e, reachable e.1) (queue (bfs_step bound l)) ∧
  violations (bfs_step bound l) = [].
Proof.
  intros Hq Hv. unfold bfs_step. destruct (queue l) as [|[s depth] q] eqn:Hql.
  - by rewrite Hql.
  - apply Forall_cons in Hq as [Hs Hq]. simpl in Hs.
    case_decide; [done|]. rewrite Hv, (reachable_check_invariants s Hs). simpl.
    case_bool_decide; simpl; [done|]. split; [|done].
    apply Forall_app. split; [done|]. apply Forall_fmap, Forall_forall.
    intros s' Hs'. simpl. by eapply rtc_r.
Qed.

Lemma bfs_loop_reachable fuel bound : ∀ l l',
  Forall (λ e, reachable e.1) (queue l) → violations l = [] →
  bfs_loop fuel bound l = Some l' → violations l' = [].
Proof.
  induction fuel as [|fuel IH]; intros l l' Hq Hv; simpl.
  - destruct (running l); [done|]. by intros [= <-].
  - destruct (running l); [|by intros [= <-]].
    destruct (bfs_step_reachable bound l Hq Hv). by apply IH.
Qed.

Lemma check_cas_passes fuel bound verbose r :
  check_cas fuel bound verbose = Some r → passed r = true ∧ reported r = [].
Proof.
  unfold check_cas. destruct (bfs_loop fuel bound start) as [l|] eqn:Hl; [simpl|done].
  apply bfs_loop_reachable in Hl; [|by apply Forall_singleton; apply rtc_refl|done].
  intros [= <-]. simpl. by rewrite Hl.
Qed.

(** Termination: the states in the queue stay inside a set of 25 states that
    is closed under the write actions. *)
Lemma closure_initial : initial ∈ closure.
Proof. compute_done. Qed.

Lemma closure_size : size closure = 25%nat.
Proof. vm_compute. reflexivity. Qed.

Lemma closure_closed s s' : s ∈ closure → s' ∈ successors s → s' ∈ closure.
Proof.
  assert (H : set_Forall (λ s, Forall (λ s', s' ∈ closure) (successors s)) closure)
    by compute_done.
  intros Hs Hs'. specialize (H s Hs). rewrite Forall_forall in H. by apply H.
Qed.

Lemma successors_length s : (length (successors s) ≤ 4)%nat.
Proof.
  unfold successors, DIGESTS, CONTENT. simpl.
  repeat case_decide; simpl; lia.
Qed.

Lemma bfs_step_decreases bound l :
  Forall (λ e, e.1 ∈ closure) (queue l) → visited l ⊆ closure →
  running l = true →
  Forall (λ e, e.1 ∈ closure) (queue (bfs_step bound l)) ∧
  visited (bfs_step bound l) ⊆ closure ∧
  (passes_left (bfs_step bound l) < passes_left l)%nat.
Proof.
  intros Hq Hvis Hrun. unfold passes_left, bfs_step.
  destruct (queue l) as [|[s depth] q] eqn:Hql.
  { unfold running in Hrun. rewrite Hql in Hrun. done. }
  apply Forall_cons in Hq as [Hs Hq]. simpl in Hs.
  case_decide as Hseen; simpl; [split_and!; [done | done | lia]|].
  unfold state_key in *.
  assert (Hvis' : {[ s ]} ∪ visited l ⊆ closure).
  { apply union_subseteq. split; [by apply singleton_subseteq_l | done]. }
  assert (Hsize : size ({[ s ]} ∪ visited l) = S (size (visited l))).
  { rewrite size_union by (by apply disjoint_singleton_l). by rewrite size_singleton. }
  pose proof (subseteq_size _ _ Hvis') as Hle. rewrite Hsize in *.
  destruct (_ || _); simpl; (split_and!; [| done |]).
  - done.
  - lia.
  - apply Forall_app. split; [done|]. apply Forall_fmap, Forall_forall.
    intros s' Hs'. simpl. by eapply closure_closed.
  - rewrite length_app, length_fmap. pose proof (successors_length s). lia.
Qed.

Lemma bfs_loop_total bound : ∀ fuel l,
  Forall (λ e, e.1 ∈ closure) (queue l) → visited l ⊆ closure →
  (passes_left l ≤ fuel)%nat →
  is_Some (bfs_loop fuel bound l).
Proof.
  induction fuel as [|fuel IH]; intros l Hq Hvis Hfuel;
    simpl; destruct (running l) eqn:Hrun; try done.
  - destruct (bfs_step_decreases bound l) as (_ & _ & ?); [done.. | lia].
  - destruct (bfs_step_decreases bound l) as (Hq' & Hvis' & ?); [done..|].
    apply IH; [done | done | lia].
Qed.

(** With 126 passes allowed the search returns, and passes, for every
    bound. *)
Lemma check_cas_total bound verbose :
  ∃ n, check_cas 126 bound verbose = Some (Result true [] n).
Proof.
  destruct (bfs_loop_total bound 126 start) as [l Hl].
  - apply Forall_singleton. apply closure_initial.
  - apply empty_subseteq.
  - unfold passes_left, start. cbn [queue visited length].
    rewrite closure_size, size_empty. lia.
  - unfold check_cas. rewrite Hl. simpl.
    apply bfs_loop_reachable in Hl as ->;
      [by eexists | by apply Forall_singleton; apply rtc_refl | done].
Qed.

End cas_facts.

(** The run with the default bound: 25 distinct states, all invariants hold. *)
Example check_cas_default :
  CAS.check_cas 200 30 false = Some (CAS.Result true [] 25).
Proof. vm_compute. reflexivity. Qed.

(** C3. CAS immutability: at a state reachable from the empty initial
    state, a digest present in the store keeps its content in every state
    reachable from there; no later write changes the stored value. *)
Theorem cas_immutability (s s' : CAS.state) (d c : string) :
  CAS.reachable s →
  CAS.store s !! d = Some c →
  rtc CAS.step s s' →
  CAS.store s' !! d = Some c.
Proof. intros _ Hd Hs. by eapply rtc_store_preserved. Qed.

Lemma cas_immutability_witness :
  CAS.store (CAS.write (CAS.write CAS.initial "d1" "c_a") "d1" "c_b") !! "d1"
  = Some "c_a".
Proof.
  apply (cas_immutability (CAS.write CAS.initial "d1" "c_a")).
  - apply rtc_once, step_write; compute_done.
  - reflexivity.
  - apply rtc_once, step_write; compute_done.
Defined.

(** C8. CAS collision accuracy: in every reachable state, a pair (d, c) in
    the collision-error set has d present in the store with a content other
    than c. *)
Theorem cas_collision_accuracy (s : CAS.state) (d c : string) :
  CAS.reachable s →
  (d, c) ∈ CAS.errors s →
  ∃ c', CAS.store s !! d = Some c' ∧ c' ≠ c.
Proof. intros Hr. by apply reachable_errors_accurate. Qed.

Lemma cas_collision_accuracy_witness :
  ∃ c', CAS.store (CAS.write (CAS.write CAS.initial "d1" "c_a") "d1" "c_b") !! "d1"
        = Some c' ∧ c' ≠ "c_b".
Proof.
  apply cas_collision_accuracy.
  - eapply rtc_l; [|apply rtc_once]; apply step_write; compute_done.
  - compute_done.
Defined.

(** C5. From the empty store, write(d1, c_a) then write(d1, c_b) are two
    transitions of the model; they leave the store at {d1: c_a}, record
    (d1, c_b) as a collision error, and in no state reachable afterwards is
    the content at d1 anything but c_a. *)
Theorem cas_write_collision_scenario :
  let s1 := CAS.write CAS.initial "d1" "c_a" in
  let s2 := CAS.write s1 "d1" "c_b" in
  CAS.step CAS.initial s1 ∧ CAS.step s1 s2 ∧
  CAS.store s1 = {[ "d1" := "c_a" ]} ∧
  CAS.store s2 = {[ "d1" := "c_a" ]} ∧
  CAS.errors s2 = {[ ("d1", "c_b") ]} ∧
  CAS.writes_ok s2 = {[ ("d1", "c_a") ]} ∧
  (∀ s', rtc CAS.step s2 s' →
         CAS.store s' !! "d1" = Some "c_a" ∧ CAS.store s' !! "d1" ≠ Some "c_b").
Proof.
  intros s1 s2.
  assert (Hfuture : ∀ s', rtc CAS.step s2 s' → CAS.store s' !! "d1" = Some "c_a").
  { intros s' Hs'. by apply (rtc_store_preserved s2 s'). }
  split_and!; try reflexivity.
  - apply step_write; compute_done.
  - apply step_write; compute_done.
  - intros s' Hs'. rewrite (Hfuture s' Hs'). by split.
Qed.

Lemma cas_write_collision_scenario_witness :
  CAS.store (CAS.write (CAS.write CAS.initial "d1" "c_a") "d1" "c_b") !! "d1"
  ≠ Some "c_b".
Proof.
  destruct cas_write_collision_scenario as (_ & _ & _ & _ & _ & _ & H).
  apply (H _ (rtc_refl _ _)).
Defined.

(** ** Protocol *)

Section protocol_facts.
Import Protocol.

Lemma head_snoc_start (stream : list string) (f : string) :
  head stream = Some "start" → head (stream ++ [f]) = Some "start".
Proof. by destruct stream. Qed.

Lemma step_well_formed st st' : step st st' → well_formed st'.
Proof.
  destruct 1; (split; simpl; [eauto using head_snoc_start | try done]);
    intros _; rewrite last_snoc; eexists; (split; [done | set_solver]).
Qed.

Lemma reachable_well_formed st : reachable st → well_formed st.
Proof.
  unfold reachable. revert st. apply rtc_ind_r.
  - split; [by left | done].
  - eauto using step_well_formed.
Qed.

Lemma event_first_None stream :
  head stream ≠ Some "event" → event_first stream = None.
Proof.
  intros Hh. unfold event_first. rewrite decide_False; [done|].
  rewrite Exists_exists. intros ([i f] & Hin & -> & ->).
  apply elem_of_lookup_imap in Hin as (i & f & [= <- <-] & Hl).
  destruct stream; by simplify_eq/=.
Qed.

Lemma check_state_well_formed stream terminated :
  well_formed (stream, terminated) → check_state stream terminated = None.
Proof.
  intros [Hfirst Hlast]. simpl in *. unfold check_state.
  assert (first_frame stream = None) as ->.
  { destruct Hfirst as [-> | Hh]; [done|].
    destruct stream as [|f tl]; [done|]. injection Hh as ->.
    unfold first_frame. by rewrite decide_False by naive_solver. }
  assert (last_frame stream terminated = None) as ->.
  { unfold last_frame. destruct terminated; [|done].
    destruct (Hlast eq_refl) as (f & -> & Hf). by rewrite decide_False by naive_solver. }
  apply event_first_None. destruct Hfirst as [-> | ->]; done.
Qed.

Lemma check_state_None stream terminated :
  check_state stream terminated = None → well_formed (stream, terminated).
Proof.
  unfold check_state. intros H.
  destruct (first_frame stream) eqn:Hf; [done|].
  destruct (last_frame stream terminated) eqn:Hl; [done|].
  split; simpl.
  - destruct stream as [|f tl]; [by left | right]. unfold first_frame in Hf.
    simpl. destruct (decide (f = "start")) as [-> | Hne]; [done|].
    by rewrite decide_True in Hf.
  - intros ->. unfold last_frame in Hl. destruct (last stream) as [f|]; [|done].
    exists f. split; [done|]. destruct (decide (f ∈ TERMINAL)) as [|Hne]; [done|].
    by rewrite decide_True in Hl.
Qed.

Lemma actions_step stream st' : st' ∈ actions stream → step (stream, false) st'.
Proof.
  unfold actions. destruct stream as [|f tl].
  - intros ->%list_elem_of_singleton. constructor.
  - case_decide as Hf; [subst f | by intros ?%elem_of_nil].
    rewrite !elem_of_app. intros [Hin | [Hin | Hin]].
    + apply list_elem_of_singleton in Hin as ->. by constructor.
    + case_decide; [|by apply elem_of_nil in Hin].
      apply list_elem_of_singleton in Hin as ->. by constructor.
    + apply elem_of_cons in Hin as [-> | ->%list_elem_of_singleton]; by constructor.
Qed.

Lemma explore_S fuel bound stream terminated depth r :
  explore (S fuel) bound stream terminated depth r =
  let r0 := Run (S (explored r)) (violations r) (trace r ++ [(stream, terminated)]) in
  match check_state stream terminated with
  | Some err => Some (Run (explored r0) (violations r0 ++ [err]) (trace r0))
  | None =>
      if terminated || bool_decide (bound ≤ depth)%Z then Some r0
      else foldM (λ r '(s, t), explore fuel bound s t (depth + 1) r) r0 (actions stream)
  end.
Proof.
  simpl. destruct (check_state stream terminated); [done|].
  destruct terminated; [done|]. simpl. case_bool_decide; [done|].
  unfold actions. destruct stream as [|f tl]; simpl.
  - by destruct (explore fuel _ _ _ _ _).
  - case_decide; [|done]. simpl.
    destruct (explore fuel bound _ false _ _) as [r1|]; [simpl|done].
    case_decide; simpl.
    + destruct (explore fuel bound _ false _ _) as [r2|]; [simpl|done].
      destruct (explore fuel bound _ true _ _) as [r3|]; [simpl|done].
      by destruct (explore fuel bound _ true _ _).
    + destruct (explore fuel bound _ true _ _) as [r3|]; [simpl|done].
      by destruct (explore fuel bound _ true _ _).
Qed.

Lemma grows_refl P r : grows P r r.
Proof. split; [done|]. exists []. by rewrite app_nil_r, Nat.add_0_r. Qed.

Lemma grows_trans P r1 r2 r3 : grows P r1 r2 → grows P r2 r3 → grows P r1 r3.
Proof.
  intros (Hv1 & tr1 & Ht1 & HP1 & He1) (Hv2 & tr2 & Ht2 & HP2 & He2).
  split; [congruence|]. exists (tr1 ++ tr2). split_and!.
  - by rewrite Ht2, Ht1, app_assoc.
  - by apply Forall_app.
  - rewrite length_app. lia.
Qed.

Lemma grows_mono (P Q : list string * bool → Prop) r r' :
  (∀ st, P st → Q st) → grows P r r' → grows Q r r'.
Proof.
  intros HPQ (Hv & tr & Ht & HP & He). split; [done|]. exists tr.
  split_and!; [done | | done]. eapply Forall_impl; eauto.
Qed.

Lemma explore_well_formed fuel : ∀ bound stream terminated depth r r',
  well_formed (stream, terminated) →
  explore fuel bound stream terminated depth r = Some r' →
  grows (rtc step (stream, terminated)) r r'.
Proof.
  induction fuel as [|fuel IH]; intros bound stream terminated depth r r' Hwf He; [done|].
  rewrite explore_S, (check_state_well_formed _ _ Hwf) in He. simpl in He.
  set (r0 := Run (S (explored r)) (violations r) (trace r ++ [(stream, terminated)])) in *.
  assert (H0 : grows (rtc step (stream, terminated)) r r0).
  { split; [done|]. exists [(stream, terminated)]. split_and!; simpl; [done| |lia].
    by apply Forall_singleton. }
  destruct (terminated || bool_decide (bound ≤ depth)%Z) eqn:Hstop.
  { by injection He as <-. }
  apply orb_false_iff in Hstop as [-> _].
  apply (grows_trans _ _ r0); [done|]. clear H0.
  pose proof (actions_step stream) as Hact. revert He Hact. generalize r0.
  induction (actions stream) as [|[s t] l IHl]; intros r1 He Hact; simpl in He.
  - injection He as <-. apply grows_refl.
  - destruct (explore fuel bound s t (depth + 1) r1) as [r2|] eqn:E; [simpl in He|done].
    assert (Hs : step (stream, false) (s, t)) by (apply Hact; left).
    apply (grows_trans _ _ r2).
    + apply IH in E; [|by eapply step_well_formed].
      eapply grows_mono; [|done]. intros st Hst. by eapply rtc_l.
    + apply IHl; [done|]. intros st' Hin. apply Hact. by right.
Qed.

Lemma explore_total fuel : ∀ bound stream terminated depth r,
  well_formed (stream, terminated) →
  (Z.to_nat (bound - depth) < fuel)%nat →
  is_Some (explore fuel bound stream terminated depth r).
Proof.
  induction fuel as [|fuel IH]; intros bound stream terminated depth r Hwf Hfuel; [lia|].
  rewrite explore_S, (check_state_well_formed _ _ Hwf). simpl.
  destruct terminated; [done|]. simpl. case_bool_decide as Hd; [done|].
  pose proof (actions_step stream) as Hact. revert Hact.
  generalize (Run (S (explored r)) (violations r) (trace r ++ [(stream, false)])).
  induction (actions stream) as [|[s t] l IHl]; intros r1 Hact; simpl; [done|].
  destruct (IH bound s t (depth + 1)%Z r1) as [r2 ->].
  - eapply step_well_formed, Hact. left.
  - lia.
  - simpl. apply IHl. intros st' Hin. apply Hact. by right.
Qed.

(** A call that records a violation records it for its own argument,
    visits nothing else and returns. *)
Lemma explore_violation fuel bound stream terminated depth r r' :
  explore fuel bound stream terminated depth r = Some r' →
  violations r' ≠ violations r →
  ∃ err, check_state stream terminated = Some err ∧
         r' = Run (S (explored r)) (violations r ++ [err])
                  (trace r ++ [(stream, terminated)]).
Proof.
  intros He Hv. destruct (check_state stream terminated) as [err|] eqn:Hc.
  - exists err. split; [done|]. destruct fuel; [done|].
    rewrite explore_S, Hc in He. by injection He as <-.
  - apply check_state_None in Hc.
    by destruct (explore_well_formed _ _ _ _ _ _ _ Hc He) as [? _].
Qed.

End protocol_facts.

(** The run with bound 3 visits 13 states. *)
Example check_protocol_bound_3 :
  Protocol.check_protocol 4 3 false = Some (Protocol.Result true [] 13).
Proof. reflexivity. Qed.

(** C7. Protocol well-formedness: a state reachable from the empty stream
    has an empty stream or one whose first tag is 'start', and if it is
    terminated its last tag is 'result' or 'error'. The states [explore]
    visits from the empty stream are reachable ones, and with the recursion
    allowed to nest deeper than the bound the check passes for every bound. *)
Theorem protocol_well_formedness :
  (∀ stream terminated,
     Protocol.reachable (stream, terminated) →
     (stream = [] ∨ head stream = Some "start") ∧
     (terminated = true → last stream = Some "result" ∨ last stream = Some "error")) ∧
  (∀ fuel bound r,
     Protocol.explore fuel bound [] false 0 (Protocol.Run 0 [] []) = Some r →
     Forall Protocol.reachable (Protocol.trace r) ∧
     Protocol.explored r = length (Protocol.trace r)) ∧
  (∀ fuel bound verbose,
     (Z.to_nat bound < fuel)%nat →
     ∃ n, Protocol.check_protocol fuel bound verbose
          = Some (Protocol.Result true [] n)).
Proof.
  assert (Hinit : well_formed ([], false)) by (split; [by left | done]).
  split_and!.
  - intros stream terminated [Hfirst Hlast]%reachable_well_formed. split; [done|].
    intros Ht. destruct (Hlast Ht) as (f & Hl & Hf). simpl in *. rewrite Hl.
    apply elem_of_union in Hf as [->%elem_of_singleton | ->%elem_of_singleton]; eauto.
  - intros fuel bound r He.
    apply explore_well_formed in He as (_ & tr & -> & Htr & ->); done.
  - intros fuel bound verbose Hfuel. unfold Protocol.check_protocol.
    destruct (explore_total fuel bound [] false 0 (Protocol.Run 0 [] []))
      as [r Hr]; [done | lia |].
    rewrite Hr. simpl. apply explore_well_formed in Hr as [Hv _]; [|done].
    simpl in Hv. rewrite Hv. by eexists.
Qed.

Lemma protocol_well_formedness_witness :
  (last ["start"; "event"; "result"] = Some "result" ∨
   last ["start"; "event"; "result"] = Some "error") ∧
  ∃ n, Protocol.check_protocol 31 30 false = Some (Protocol.Result true [] n).
Proof.
  destruct protocol_well_formedness as (Hreach & _ & Hpass). split.
  - apply (Hreach ["start"; "event"; "result"] true); [|reflexivity].
    eapply rtc_l; [apply Protocol.step_start|].
    eapply rtc_l; [by apply (Protocol.step_event ["start"])|].
    apply rtc_once. by apply (Protocol.step_result ["start"; "event"]).
  - apply Hpass. vm_compute. lia.
Defined.

(** C4. A violation halts the exploration. CAS: when the state taken from
    the queue is new and violates an invariant, the loop ends with that pass:
    one more state explored, the rest of the queue left unvisited, and the
    violations reported are those of this state; with a violation recorded
    the loop does not run. Protocol: a call of [explore] whose state fails
    [check_state] records that one violation and returns without visiting
    anything else, and no call records a violation in any other way. *)
Theorem violation_halts_exploration :
  (∀ fuel bound s depth q vis n,
     CAS.state_key s ∉ vis →
     CAS.check_invariants s ≠ [] →
     CAS.bfs_loop (S fuel) bound (CAS.Loop ((s, depth) :: q) vis [] n)
     = Some (CAS.Loop q ({[ CAS.state_key s ]} ∪ vis) (CAS.check_invariants s) (S n))) ∧
  (∀ fuel bound l,
     CAS.violations l ≠ [] → CAS.bfs_loop fuel bound l = Some l) ∧
  (∀ fuel bound stream terminated depth r err,
     Protocol.check_state stream terminated = Some err →
     Protocol.explore (S fuel) bound stream terminated depth r
     = Some (Protocol.Run (S (Protocol.explored r))
                          (Protocol.violations r ++ [err])
                          (Protocol.trace r ++ [(stream, terminated)]))) ∧
  (∀ fuel bound stream terminated depth r r',
     Protocol.explore fuel bound stream terminated depth r = Some r' →
     Protocol.violations r' ≠ Protocol.violations r →
     ∃ err, Protocol.check_state stream terminated = Some err ∧
            r' = Protocol.Run (S (Protocol.explored r))
                              (Protocol.violations r ++ [err])
                              (Protocol.trace r ++ [(stream, terminated)])).
Proof.
  split_and!.
  - intros fuel bound s depth q vis n Hvis Hbad.
    change (CAS.bfs_loop (S fuel) bound (CAS.Loop ((s, depth) :: q) vis [] n))
      with (CAS.bfs_loop fuel bound
              (CAS.bfs_step bound (CAS.Loop ((s, depth) :: q) vis [] n))).
    rewrite bfs_step_violation by done. by apply bfs_loop_stops.
  - apply bfs_loop_stops.
  - intros fuel bound stream terminated depth r err Hc.
    by rewrite explore_S, Hc.
  - apply explore_violation.
Qed.

Lemma violation_halts_exploration_witness :
  let bad := CAS.State {[ "d1" := "c_b" ]} {[ ("d1", "c_a") ]} ∅ in
  CAS.bfs_loop 9 30 (CAS.Loop [(bad, 0%Z); (CAS.initial, 0%Z)] ∅ [] 0)
  = Some (CAS.Loop [(CAS.initial, 0%Z)] ({[ bad ]} ∪ ∅)
                   [CAS.CAS_INV_1 "d1" "c_b" "c_a"; CAS.CAS_INV_2 "d1" "c_a"] 1) ∧
  ∃ err, Protocol.check_state ["event"] false = Some err ∧
         Protocol.explore 9 30 ["event"] false 0 (Protocol.Run 0 [] [])
         = Some (Protocol.Run 1 [err] [(["event"], false)]) .
Proof.
  destruct violation_halts_exploration as (Hcas & _ & _ & Hproto).
  intros bad. split.
  - apply (Hcas 8%nat 30%Z bad 0%Z [(CAS.initial, 0%Z)] ∅ 0%nat).
    + compute_done.
    + intros H. vm_compute in H. discriminate H.
  - destruct (Hproto 9%nat 30%Z ["event"] false 0%Z (Protocol.Run 0 [] [])
                (Protocol.Run 1 [Protocol.PROTO_INV_1 "event"] [(["event"], false)]))
      as (err & Herr & Hr').
    + reflexivity.
    + simpl. discriminate.
    + exists err. split; [done|]. simpl in Hr'. by rewrite <- Hr'.
Defined.

(** ** Replay *)

Section replay_facts.
Import Replay.

Lemma choice_DIGESTS t cur :
  Random.choice t DIGESTS cur = Some (drawn t cur, S cur).
Proof.
  unfold Random.choice, Random.randbelow, drawn.
  change (length DIGESTS) with 3%nat.
  pose proof (Nat.mod_upper_bound (t cur) 3) as Hlt.
  destruct (t cur mod 3)%nat as [|[|[|k]]]; [reflexivity.. | lia].
Qed.

Lemma sample_exec_fn_eq t cur :
  sample_exec_fn t cur = Some (sampled_at t cur, S (S cur)).
Proof.
  unfold sample_exec_fn, REQUESTS, foldM.
  rewrite choice_DIGESTS. simpl. by rewrite choice_DIGESTS.
Qed.

Lemma size_repeated (a : string) : ¬ (1 < size (list_to_set [a; a; a] : gset string))%nat.
Proof.
  rewrite !list_to_set_cons, list_to_set_nil, (right_id_L ∅ (∪)), !(idemp_L (∪)).
  rewrite size_singleton. lia.
Qed.

(** Whatever function is fixed, a trial adds no violation: every node reads
    the one table, and so does the replay pass. *)
Lemma trial_no_violation (exec_fn : gmap string string) (vs : list violation) :
  (∀ r, r ∈ REQUESTS → is_Some (exec_fn !! r)) →
  trial exec_fn vs = Some vs.
Proof.
  intros Htot.
  destruct (Htot "req_a") as [a Ha]; [compute_done|].
  destruct (Htot "req_b") as [b Hb]; [compute_done|].
  unfold trial, execute, replay, NODES, REQUESTS, foldM.
  rewrite Ha, Hb. simpl.
  unfold check_inv1, NODES, REQUESTS, foldM, mapM. simpl.
  simplify_map_eq.
  destruct (decide (1 < _)%nat) as [H|_]; [by apply size_repeated in H|]. simpl.
  destruct (decide (1 < _)%nat) as [H|_]; [by apply size_repeated in H|]. simpl.
  unfold check_inv3, foldM. by simplify_map_eq.
Qed.

Lemma sampled_at_total t cur r : r ∈ REQUESTS → is_Some (sampled_at t cur !! r).
Proof.
  unfold REQUESTS, sampled_at.
  intros [-> | [-> | []%elem_of_nil]%elem_of_cons]%elem_of_cons; by eexists.
Qed.

Lemma trial_step_eq t r :
  trial_step t r
  = Some (Run (S (S (cursor r))) (violations r) (sampled r ++ [sampled_at t (cursor r)])).
Proof.
  unfold trial_step. rewrite sample_exec_fn_eq. simpl.
  by rewrite trial_no_violation by apply sampled_at_total.
Qed.

Lemma trials_eq t n : ∀ r,
  trials t n r
  = Some (Run (cursor r + 2 * n) (violations r)
              (sampled r ++ ((λ i, sampled_at t (cursor r + 2 * i)) <$> seq 0 n))).
Proof.
  induction n as [|n IH]; intros r.
  - cbn [trials seq]. rewrite Nat.mul_0_r, Nat.add_0_r, fmap_nil, app_nil_r.
    by destruct r.
  - cbn [trials]. rewrite trial_step_eq. cbn [mbind option_bind].
    rewrite IH. cbn [cursor violations sampled]. f_equal. f_equal; [lia|].
    rewrite <- app_assoc. f_equal. rewrite <- cons_seq, fmap_cons.
    rewrite Nat.mul_0_r, Nat.add_0_r. cbn [app]. f_equal.
    rewrite <- fmap_S_seq, <- list_fmap_compose. apply list_fmap_ext.
    intros _ i _. cbn. f_equal. lia.
Qed.

Lemma check_replay_eq t bound verbose :
  check_replay t bound verbose
  = Some (Result true [] bound
            ((λ i, sampled_at t (2 * i)) <$> seq 0 (Z.to_nat (bound `min` 20)))).
Proof. unfold check_replay. by rewrite trials_eq. Qed.

End replay_facts.

(** C2, as stated, fails at the default bound 30: 20 trials are run. *)
Lemma replay_trial_count_counterexample :
  ¬ replay_runs_bound_trials (λ _, 0%nat) 30.
Proof.
  intros (r & Hr & Hlen & _). rewrite check_replay_eq in Hr.
  injection Hr as <-. vm_compute in Hlen. discriminate Hlen.
Qed.

(** C2, amended. Invoked with bound b the Replay check runs min(b, 20)
    trials (none when b is not positive); the i-th trial fixes the function
    given by its own two fresh draws, and the number printed is b. *)
Theorem replay_trial_count (t : Random.tape) (b : Z) (verbose : bool) :
  ∃ r, Replay.check_replay t b verbose = Some r ∧
       length (Replay.functions r) = Z.to_nat (b `min` 20) ∧
       (∀ i, (i < Z.to_nat (b `min` 20))%nat →
             Replay.functions r !! i = Some (sampled_at t (2 * i))) ∧
       Replay.printed_trials r = b.
Proof.
  rewrite check_replay_eq. eexists. split; [done|]. simpl. split_and!.
  - by rewrite length_fmap, length_seq.
  - intros i Hi. rewrite list_lookup_fmap, lookup_seq_lt by done. done.
  - done.
Qed.

Lemma replay_trial_count_witness :
  ∃ r, Replay.check_replay (λ n, n) 30 false = Some r ∧
       length (Replay.functions r) = 20%nat ∧
       Replay.functions r !! 1%nat = Some {[ "req_a" := "d_z"; "req_b" := "d_x" ]} ∧
       Replay.printed_trials r = 30%Z.
Proof.
  destruct (replay_trial_count (λ n, n) 30 false) as (r & Hr & Hlen & Hfn & Hp).
  exists r. split_and!; [done | done | | done].
  rewrite (Hfn 1%nat) by (vm_compute; lia). reflexivity.
Defined.

(** C10. For every bound and every outcome of the sampling the Replay check
    returns True with no violation; a trial adds no violation whatever
    function it fixes, so neither REPLAY-INV-1 nor REPLAY-INV-3 is ever
    reported. *)
Theorem replay_never_fails :
  (∀ (t : Random.tape) (b : Z) (verbose : bool),
     ∃ r, Replay.check_replay t b verbose = Some r ∧
          Replay.passed r = true ∧ Replay.reported r = []) ∧
  (∀ (exec_fn : gmap string string) (vs : list Replay.violation),
     (∀ r, r ∈ Replay.REQUESTS → is_Some (exec_fn !! r)) →
     Replay.trial exec_fn vs = Some vs).
Proof.
  split.
  - intros t b verbose. rewrite check_replay_eq. by eexists.
  - apply trial_no_violation.
Qed.

Lemma replay_never_fails_witness :
  Replay.trial {[ "req_a" := "d_x"; "req_b" := "d_z" ]} [] = Some [].
Proof.
  destruct replay_never_fails as [_ Htrial]. apply Htrial.
  intros r Hr.
  apply elem_of_cons in Hr as [-> | Hr]; [eexists; reflexivity|].
  apply elem_of_cons in Hr as [-> | Hr]; [eexists; reflexivity|].
  by apply elem_of_nil in Hr.
Defined.

(** ** Determinism *)

Section determinism_facts.
Import Determinism.

Variable sha256_hexdigest : string → string.

Lemma swap_length {A} (x : list A) i j : length (Random.swap x i j) = length x.
Proof.
  unfold Random.swap. destruct (x !! i), (x !! j); by rewrite ?length_insert.
Qed.

Lemma shuffle_from_length {A} t i : ∀ (x : list A) cur,
  length (Random.shuffle_from t i x cur).1 = length x.
Proof.
  induction i as [|i IH]; intros x cur; [done|].
  cbn [Random.shuffle_from]. unfold Random.randbelow. rewrite IH. apply swap_length.
Qed.

Lemma shuffle_length {A} t (x : list A) cur :
  length (Random.shuffle t x cur).1 = length x.
Proof. apply shuffle_from_length. Qed.

Lemma choice_is_Some {A} t (seq : list A) cur :
  seq ≠ [] → ∃ x, Random.choice t seq cur = Some (x, S cur).
Proof.
  intros Hne. unfold Random.choice, Random.randbelow.
  destruct (lookup_lt_is_Some_2 seq (t cur mod length seq)) as [x ->].
  - apply Nat.mod_upper_bound. by destruct seq.
  - by exists x.
Qed.

Lemma call_loop_is_Some t ops n : ∀ c,
  ops ≠ [] → is_Some (call_loop sha256_hexdigest t ops n c).
Proof.
  induction n as [|n IH]; intros c Hne; [done|].
  cbn [call_loop]. unfold call_step.
  destruct (choice_is_Some t ops (cursor c) Hne) as [[prefix inp] ->]. simpl.
  destruct (simulate_hash _ _ _ _) as [d hash_fn']. simpl. by apply IH.
Qed.

(** The purity pass only ever adds DET-INV-1 records. *)
Lemma check_inv1_no_inv2 hash_calls vs :
  DET_INV_2 ∈ check_inv1 hash_calls vs ↔ DET_INV_2 ∈ vs.
Proof.
  unfold check_inv1. generalize (∅ : gmap (string * string) string) as seen.
  revert vs. induction hash_calls as [|[[p i] d] l IH]; intros vs seen; [done|].
  cbn [foldl]. destruct (seen !! (p, i)) as [previous|].
  - case_decide; rewrite IH; [|done].
    rewrite elem_of_app, list_elem_of_singleton. split; [|by left].
    by intros [? | [=]].
  - by rewrite IH.
Qed.

Lemma elem_of_digests_of prefix hash_calls d :
  d ∈ digests_of prefix hash_calls ↔ (prefix, "input_a", d) ∈ hash_calls.
Proof.
  unfold digests_of. rewrite elem_of_list_to_set, list_elem_of_bind. split.
  - intros ([[p i] d'] & Hd & Hin). case_decide as Hpi; [|by apply elem_of_nil in Hd].
    apply list_elem_of_singleton in Hd as ->. by destruct Hpi as [-> ->].
  - intros Hin. exists (prefix, "input_a", d). split; [|done].
    rewrite decide_True by done. by apply list_elem_of_singleton.
Qed.

Lemma check_inv2_spec hash_calls vs :
  DET_INV_2 ∈ check_inv2 hash_calls vs ↔
  DET_INV_2 ∈ vs ∨
  ∃ d, ("req:", "input_a", d) ∈ hash_calls ∧ ("cas:", "input_a", d) ∈ hash_calls.
Proof.
  unfold check_inv2. case_decide as Hne.
  - rewrite elem_of_app, list_elem_of_singleton. split; [|by right].
    intros _. right. apply set_choose_L in Hne as [d Hd]. exists d.
    apply elem_of_intersection in Hd as [Hreq Hcas].
    by rewrite <- !elem_of_digests_of.
  - split; [by left|]. intros [? | (d & Hreq & Hcas)]; [done|].
    exfalso. apply (not_elem_of_empty (C := gset string) d). rewrite <- Hne.
    apply elem_of_intersection. by rewrite !elem_of_digests_of.
Qed.

Lemma simulate_hash_ok prefix inp hash_fn :
  memo_ok sha256_hexdigest hash_fn →
  (simulate_hash sha256_hexdigest prefix inp hash_fn).1
  = digest_of sha256_hexdigest prefix inp ∧
  memo_ok sha256_hexdigest (simulate_hash sha256_hexdigest prefix inp hash_fn).2.
Proof.
  intros Hok. unfold simulate_hash.
  destruct (hash_fn !! (prefix, inp)) as [d|] eqn:Hd; simpl.
  - split; [by apply Hok | done].
  - split; [done|]. intros p i d.
    destruct (decide ((prefix, inp) = (p, i))) as [[= <- <-] | Hne].
    + rewrite lookup_insert_eq. by intros [= <-].
    + rewrite lookup_insert_ne by done. apply Hok.
Qed.

Lemma call_loop_ok t ops n : ∀ c c',
  memo_ok sha256_hexdigest (hash_fn c) →
  calls_ok sha256_hexdigest (hash_calls c) →
  call_loop sha256_hexdigest t ops n c = Some c' →
  calls_ok sha256_hexdigest (hash_calls c') ∧
  length (hash_calls c') = (length (hash_calls c) + n)%nat.
Proof.
  induction n as [|n IH]; intros c c' Hmemo Hcalls; cbn [call_loop].
  - intros [= <-]. split; [done | lia].
  - unfold call_step. destruct (Random.choice t ops (cursor c)) as [[[prefix inp] cur]|];
      [simpl | done].
    pose proof (simulate_hash_ok prefix inp (hash_fn c) Hmemo) as [Hd Hmemo'].
    destruct (simulate_hash _ _ _ _) as [d hash_fn']. simpl in *.
    intros [Hok Hlen]%IH; simpl; [| done |].
    + split; [done|]. simpl in Hlen. rewrite Hlen, length_app. simpl. lia.
    + intros p i d' [Hin | [= -> -> ->]%list_elem_of_singleton]%elem_of_app.
      * by apply Hcalls.
      * done.
Qed.

(** On calls that all carry the digest of their arguments the purity pass
    reports nothing. *)
Lemma check_inv1_pure hash_calls vs :
  calls_ok sha256_hexdigest hash_calls → check_inv1 hash_calls vs = vs.
Proof.
  unfold check_inv1.
  assert (Hseen : memo_ok sha256_hexdigest ∅) by (intros p i d; by rewrite lookup_empty).
  revert Hseen. generalize (∅ : gmap (string * string) string) as seen.
  induction hash_calls as [|[[p i] d] l IH]; intros seen Hseen Hcalls; [done|].
  assert (Hd : d = digest_of sha256_hexdigest p i) by (apply Hcalls; left).
  assert (Hl : calls_ok sha256_hexdigest l).
  { intros p' i' d' Hin. apply Hcalls. by right. }
  cbn [foldl]. destruct (seen !! (p, i)) as [previous|] eqn:Hp.
  - apply Hseen in Hp. rewrite decide_False by congruence. by apply IH.
  - apply IH; [|done]. intros p' i' d'.
    destruct (decide ((p, i) = (p', i'))) as [[= <- <-] | Hne].
    + rewrite lookup_insert_eq. by intros [= <-].
    + rewrite lookup_insert_ne by done. apply Hseen.
Qed.

Lemma check_determinism_calls t bound verbose r :
  check_determinism sha256_hexdigest t bound verbose = Some r →
  calls_ok sha256_hexdigest (recorded r) ∧
  calls_made r = Z.to_nat bound ∧
  ∀ v, v ∈ reported r → v = DET_INV_2.
Proof.
  unfold check_determinism. destruct (Random.shuffle t product_ops 0) as [ops cur].
  destruct (call_loop _ _ _ _ _) as [c|] eqn:Hc; [simpl|done].
  apply call_loop_ok in Hc as [Hok Hlen];
    [| intros p i d H; simpl in H; by rewrite lookup_empty in H
     | by intros p i d ?%elem_of_nil].
  intros [= <-]. simpl. split_and!; [done | done |].
  rewrite check_inv1_pure by done. unfold check_inv2.
  intros v. case_decide; [|by intros ?%elem_of_nil].
  by intros ?%list_elem_of_singleton.
Qed.

Lemma check_determinism_is_Some t bound verbose :
  is_Some (check_determinism sha256_hexdigest t bound verbose).
Proof.
  unfold check_determinism.
  pose proof (shuffle_length t product_ops 0) as Hlen.
  destruct (Random.shuffle t product_ops 0) as [ops cur]. simpl in Hlen.
  destruct (call_loop_is_Some t ops (Z.to_nat bound) (Calls cur ∅ [])) as [c ->].
  - intros ->. discriminate Hlen.
  - by eexists.
Qed.

Lemma check_determinism_inv2 t bound verbose r :
  check_determinism sha256_hexdigest t bound verbose = Some r →
  DET_INV_2 ∈ reported r ↔
  ∃ d, ("req:", "input_a", d) ∈ recorded r ∧ ("cas:", "input_a", d) ∈ recorded r.
Proof.
  unfold check_determinism. destruct (Random.shuffle t product_ops 0) as [ops cur].
  destruct (call_loop _ _ _ _ _) as [c|]; [simpl|done].
  intros [= <-]. simpl. rewrite check_inv2_spec, check_inv1_no_inv2.
  split; [|by right]. by intros [?%elem_of_nil|].
Qed.

Lemma swap_Permutation {A} (x : list A) i j : Random.swap x i j ≡ₚ x.
Proof.
  unfold Random.swap. destruct (x !! i) as [a|] eqn:Hi; [|done].
  destruct (x !! j) as [b|] eqn:Hj; [|done].
  by apply Permutation_insert_swap.
Qed.

Lemma shuffle_from_Permutation {A} t i : ∀ (x : list A) cur,
  (Random.shuffle_from t i x cur).1 ≡ₚ x.
Proof.
  induction i as [|i IH]; intros x cur; [done|].
  cbn [Random.shuffle_from]. unfold Random.randbelow. rewrite IH.
  apply swap_Permutation.
Qed.

Lemma choice_elem_of {A} t (seq : list A) cur x cur' :
  Random.choice t seq cur = Some (x, cur') → x ∈ seq ∧ cur' = S cur.
Proof.
  unfold Random.choice, Random.randbelow.
  destruct (seq !! _) as [y|] eqn:Hy; [simpl|done].
  intros [= <- <-]. split; [|done]. by eapply list_elem_of_lookup_2.
Qed.

Lemma call_loop_ops t ops n : ∀ c c',
  (∀ p i d, (p, i, d) ∈ hash_calls c → (p, i) ∈ ops) →
  call_loop sha256_hexdigest t ops n c = Some c' →
  ∀ p i d, (p, i, d) ∈ hash_calls c' → (p, i) ∈ ops.
Proof.
  induction n as [|n IH]; intros c c' Hc; cbn [call_loop].
  - by intros [= <-].
  - unfold call_step.
    destruct (Random.choice t ops (cursor c)) as [[[prefix inp] cur]|] eqn:Hch;
      [simpl | done].
    apply choice_elem_of in Hch as [Hin _].
    destruct (simulate_hash _ _ _ _) as [d hash_fn']. simpl.
    apply IH. simpl. intros p i d' [? | [= -> -> ->]%list_elem_of_singleton]%elem_of_app;
      [by eapply Hc | done].
Qed.

Lemma elem_of_product_ops p i :
  (p, i) ∈ product_ops ↔ p ∈ DOMAIN_PREFIXES ∧ i ∈ INPUTS.
Proof.
  unfold product_ops. rewrite list_elem_of_bind. split.
  - intros (p' & (i' & [= -> ->]%list_elem_of_singleton & Hi)%list_elem_of_bind & Hp).
    done.
  - intros [Hp Hi]. exists p. split; [|done]. apply list_elem_of_bind.
    exists i. split; [|done]. by apply list_elem_of_singleton.
Qed.

Lemma check_determinism_ops t bound verbose r p i d :
  check_determinism sha256_hexdigest t bound verbose = Some r →
  (p, i, d) ∈ recorded r → p ∈ DOMAIN_PREFIXES ∧ i ∈ INPUTS.
Proof.
  unfold check_determinism.
  pose proof (shuffle_from_Permutation t (length product_ops - 1) product_ops 0) as Hperm.
  fold (Random.shuffle t product_ops 0) in Hperm.
  destruct (Random.shuffle t product_ops 0) as [ops cur]. simpl in Hperm.
  destruct (call_loop _ _ _ _ _) as [c|] eqn:Hc; [simpl|done].
  intros [= <-]. simpl. intros Hin.
  apply elem_of_product_ops. rewrite <- Hperm.
  eapply call_loop_ops; [|done..]. simpl. by intros ? ? ? ?%elem_of_nil.
Qed.


End determinism_facts.

(** The constants as FIPS 180-4 prints them (the first and the last round
    constant, the first word of the initial hash value). *)
Example sha256_constants :
  length SHA256.K = 64%nat ∧ head SHA256.K = Some 0x428a2f98%N ∧
  last SHA256.K = Some 0xc67178f2%N ∧ head SHA256.H0 = Some 0x6a09e667%N.
Proof. split_and!; reflexivity. Qed.

(** The hash function on test vectors of FIPS 180-4 (one block, two
    blocks) and on a character that takes two bytes. *)
Example sha256_hexdigest_abc :
  SHA256.sha256_hexdigest "abc"
  = "ba7816bf8f01cfea414140de5dae2223b00361a396177a9cb410ff61f20015ad".
Proof. vm_compute. reflexivity. Qed.

Example sha256_hexdigest_two_blocks :
  SHA256.sha256_hexdigest "abcdbcdecdefdefgefghfghighijhijkijkljklmklmnlmnomnopnopq"
  = "248d6a61d20638b8e5c026930c3e6039a33ce45964ff2167f6ecedd419db06c1".
Proof. vm_compute. reflexivity. Qed.

Example sha256_hexdigest_e_acute :
  SHA256.sha256_hexdigest (String (Ascii.ascii_of_N 233) "")
  = "4a99557e4033c3539de2eb65472017cad5f9557f7a0625a09f1c3f6e2ba69c4c".
Proof. vm_compute. reflexivity. Qed.





(** With a hash that gives every input the same digest, a run that calls
    "req:" and "cas:" on "input_a" is reported. *)
Example check_determinism_collision :
  Determinism.check_determinism (λ _, "0123456789abcdef") (λ n, n) 4 false
  = Some (Determinism.Result false [Determinism.DET_INV_2] 4
            [("req:", "input_a", "0123456789abcdef");
             ("cas:", "input_c", "0123456789abcdef");
             ("res:", "", "0123456789abcdef");
             ("cas:", "input_a", "0123456789abcdef")]).
Proof. vm_compute. reflexivity. Qed.

(** ** PolicyCompiler *)

Section policy_facts.
Import Policy.

Lemma foldR_generate cfg (l : list atom) : ∀ acc gen,
  foldR (λ generated_constraints p,
           match COMPILER_MAP cfg !! p with
           | Some cs => Ok (generated_constraints ∪ cs)
           | None => Raise KeyError
           end) acc l = Ok gen →
  (∀ p, p ∈ l → is_Some (COMPILER_MAP cfg !! p)) ∧
  ∀ c, c ∈ gen ↔ c ∈ acc ∨ ∃ p cs, p ∈ l ∧ COMPILER_MAP cfg !! p = Some cs ∧ c ∈ cs.
Proof.
  induction l as [|p l IH]; intros acc gen; cbn [foldR].
  - intros [= <-]. split; [by intros ? ?%elem_of_nil|].
    intros c. split; [by left|]. by intros [? | (? & ? & ?%elem_of_nil & _)].
  - destruct (COMPILER_MAP cfg !! p) as [cs|] eqn:Hp; [|done]. cbn [bind].
    intros [Hdef Hgen]%IH. split.
    + intros q [-> | ?]%elem_of_cons; [by rewrite Hp | by apply Hdef].
    + intros c. rewrite Hgen, elem_of_union. split.
      * intros [[? | ?] | (q & cs' & ? & ? & ?)]; [by left | right | right].
        -- exists p, cs. split_and!; [left | done | done].
        -- exists q, cs'. split_and!; [by right | done | done].
      * intros [? | (q & cs' & [-> | ?]%elem_of_cons & Hq & ?)].
        -- by left; left.
        -- left; right. congruence.
        -- right. by exists q, cs'.
Qed.

Lemma generate_spec cfg active gen :
  generate cfg active = Ok gen →
  (∀ p, p ∈ active → is_Some (COMPILER_MAP cfg !! p)) ∧
  ∀ c, c ∈ gen ↔ ∃ p cs, p ∈ active ∧ COMPILER_MAP cfg !! p = Some cs ∧ c ∈ cs.
Proof.
  unfold generate. intros [Hdef Hgen]%foldR_generate. split.
  - intros p Hp. apply Hdef. by apply elem_of_elements.
  - intros c. rewrite Hgen. setoid_rewrite elem_of_elements. split.
    + by intros [?%not_elem_of_empty | ?].
    + by right.
Qed.

Lemma has_conflict_false cfg (gen : gset atom) :
  has_conflict cfg gen = false ↔
  ∀ c1 c2, c1 ∈ gen → c2 ∈ gen → c1 ≠ c2 → {[ c1; c2 ]} ∉ CONFLICTS cfg.
Proof.
  unfold has_conflict. rewrite <- not_true_iff_false, existsb_exists. split.
  - intros Hno c1 c2 H1 H2 Hne Hin. apply Hno. exists c1. split.
    + by apply list_elem_of_In, elem_of_elements.
    + apply existsb_exists. exists c2. split.
      * by apply list_elem_of_In, elem_of_elements.
      * by rewrite !bool_decide_eq_true_2.
  - intros Hno (c1 & H1%list_elem_of_In%elem_of_elements &
                (c2 & H2%list_elem_of_In%elem_of_elements & Hb)%existsb_exists).
    apply andb_true_iff in Hb as [Hne%bool_decide_eq_true Hin%bool_decide_eq_true].
    by apply (Hno c1 c2).
Qed.

(** The completeness pass never reports: the generated set is the union it
    is compared with. *)
Lemma check_inv1_no_violation cfg active gen vs :
  generate cfg active = Ok gen → check_inv1 cfg active gen vs = Ok vs.
Proof.
  intros [Hdef Hgen]%generate_spec. unfold check_inv1.
  assert (Hall : ∀ p, p ∈ elements active → p ∈ active) by (intros p; apply elem_of_elements).
  revert Hall. induction (elements active) as [|p l IH]; intros Hall; [done|].
  cbn [foldR]. destruct (Hdef p) as [cs Hcs]; [apply Hall; left|]. rewrite Hcs.
  rewrite decide_True.
  - cbn [bind]. apply IH. intros q Hq. apply Hall. by right.
  - intros c Hc. apply Hgen. exists p, cs. split_and!; [apply Hall; left | done | done].
Qed.

Lemma dict_lookup_snoc key items k d :
  dict_lookup key (items ++ [(k, d)])
  = match dict_lookup key items with
    | Some v => Some v
    | None => if decide (k = key) then Some d else None
    end.
Proof.
  induction items as [|[k' v'] items IH]; [done|].
  cbn [app dict_lookup]. by destruct (decide (k' = key)).
Qed.

Lemma dict_lookup_None key items : key ∉ items.*1 → dict_lookup key items = None.
Proof.
  induction items as [|[k v] items IH]; simpl; [done|].
  intros [Hne Hnot]%not_elem_of_cons. rewrite decide_False by done. by apply IH.
Qed.

End policy_facts.

(** C9. Policy completeness/consistency: for a set of active policies whose
    generated constraints hold no conflicting pair, every active policy's
    constraint set is included in the generated constraints (so the
    completeness pass reports nothing) and no two distinct generated
    constraints form a declared conflict. With the built-in definitions the
    check enumerates the 8 subsets of the 3 policies and passes. *)
Theorem policy_completeness_consistency :
  (∀ (cfg : Policy.config) (active gen : gset Policy.atom),
     Policy.generate cfg active = Policy.Ok gen →
     Policy.has_conflict cfg gen = false →
     (∀ p, p ∈ active →
           ∃ cs, Policy.COMPILER_MAP cfg !! p = Some cs ∧ cs ⊆ gen) ∧
     (∀ vs, Policy.check_inv1 cfg active gen vs = Policy.Ok vs) ∧
     (∀ c1 c2, c1 ∈ gen → c2 ∈ gen → c1 ≠ c2 →
               {[ c1; c2 ]} ∉ Policy.CONFLICTS cfg)) ∧
  (∀ (bound : Z) (verbose : bool),
     ∃ r, Policy.check_policy_compiler bound verbose None = Policy.Ok r ∧
          Policy.passed r = true ∧ Policy.reported r = [] ∧
          Policy.printed_policies r = 3%nat ∧
          length (Policy.enumerated r) = 8%nat).
Proof.
  split.
  - intros cfg active gen Hgen Hconf. split_and!.
    + intros p Hp. destruct (generate_spec _ _ _ Hgen) as [Hdef Hin].
      destruct (Hdef p Hp) as [cs Hcs]. exists cs. split; [done|].
      intros c Hc. apply Hin. by exists p, cs.
    + intros vs. by apply check_inv1_no_violation.
    + by apply has_conflict_false.
  - intros bound verbose. by eexists.
Qed.

Lemma policy_completeness_consistency_witness :
  let active : gset Policy.atom := {[ Policy.AStr "p1"; Policy.AStr "p3" ]} in
  let gen : gset Policy.atom := {[ Policy.AStr "c1"; Policy.AStr "c3" ]} in
  (∃ cs, Policy.COMPILER_MAP Policy.builtin !! Policy.AStr "p3" = Some cs ∧ cs ⊆ gen) ∧
  {[ Policy.AStr "c1"; Policy.AStr "c3" ]} ∉ Policy.CONFLICTS Policy.builtin.
Proof.
  intros active gen.
  destruct policy_completeness_consistency as [Hsub _].
  destruct (Hsub Policy.builtin active gen) as (Hcomplete & _ & Hconsistent).
  - vm_compute. reflexivity.
  - vm_compute. reflexivity.
  - split.
    + apply Hcomplete. compute_done.
    + apply Hconsistent; compute_done.
Defined.

(** The consistency pass compares every ordered pair, a constraint with
    itself included: a declared conflict with a single member is reported
    although [has_conflict] found nothing. *)
Lemma policy_single_member_conflict_reported :
  Policy.check_policy_compiler 30 false
    (Some (Policy.JObj
             [("policies", Policy.JArr [Policy.JStr "p1"]);
              ("map", Policy.JObj [("p1", Policy.JArr [Policy.JStr "c1"])]);
              ("conflicts", Policy.JArr [Policy.JArr [Policy.JStr "c1"]])]))
  = Policy.Ok (Policy.Result false
                 [Policy.POLICY_INV_2 (Policy.AStr "c1") (Policy.AStr "c1")] 1
                 [[]; [Policy.JStr "p1"]]).
Proof. reflexivity. Qed.

(** A wrong shape can also surface only once the enumeration is under way:
    with policies but no map, the empty subset is checked and the first
    policy then raises KeyError. *)
Lemma policy_missing_map_raises_late :
  let data := Policy.JObj [("policies", Policy.JArr [Policy.JStr "p1"])] in
  Policy.load data
  = Policy.Ok (Policy.Config (Policy.JArr [Policy.JStr "p1"]) ∅ []) ∧
  Policy.check_subset (Policy.Config (Policy.JArr [Policy.JStr "p1"]) ∅ []) [] []
  = Policy.Ok [] ∧
  Policy.check_policy_compiler 30 false (Some data) = Policy.Raise Policy.KeyError.
Proof. split_and!; reflexivity. Qed.

(** C1, as stated, fails on the definition file [{}]: nothing is raised,
    the three missing keys are read as empty and the check passes. *)
Lemma policy_malformed_counterexample :
  ¬ rejects_malformed (Policy.JObj []) ∧
  Policy.load (Policy.JObj []) = Policy.Ok (Policy.Config (Policy.JArr []) ∅ []) ∧
  Policy.check_policy_compiler 30 false (Some (Policy.JObj []))
  = Policy.Ok (Policy.Result true [] 0 [[]]).
Proof.
  split_and!; [|reflexivity..].
  intros H. destruct H as [e He]; [|discriminate He].
  intros [(items & [= <-] & Hin%elem_of_nil) _]. done.
Qed.

Lemma get_with_default items key default k d :
  (k = key → d = default) →
  Policy.get (Policy.JObj (with_default k d items)) key default
  = Policy.get (Policy.JObj items) key default.
Proof.
  intros Hsame. unfold with_default, Policy.get. case_decide as Hin; [done|].
  rewrite dict_lookup_snoc. destruct (Policy.dict_lookup key items); [done|].
  case_decide; [|done]. by rewrite Hsame.
Qed.

Lemma load_with_defaults items :
  Policy.load (Policy.JObj (with_defaults items)) = Policy.load (Policy.JObj items).
Proof.
  unfold Policy.load, with_defaults.
  by rewrite !get_with_default by (intros [=]; done).
Qed.

(** C1, amended. A definition object that lacks "policies", "map" or
    "conflicts" is not rejected: the check behaves exactly as on the object
    completed with the empty list, the empty map and the empty list for the
    keys it lacks. A definition that is not an object raises AttributeError
    while it is loaded, before any subset is enumerated. *)
Theorem policy_missing_keys_read_as_empty :
  (∀ (bound : Z) (verbose : bool) (items : list (string * Policy.json)),
     Policy.check_policy_compiler bound verbose (Some (Policy.JObj items))
     = Policy.check_policy_compiler bound verbose
         (Some (Policy.JObj (with_defaults items)))) ∧
  (∀ (bound : Z) (verbose : bool) (data : Policy.json),
     (∀ items, data ≠ Policy.JObj items) →
     Policy.load data = Policy.Raise Policy.AttributeError ∧
     Policy.check_policy_compiler bound verbose (Some data)
     = Policy.Raise Policy.AttributeError).
Proof.
  split.
  - intros bound verbose items. unfold Policy.check_policy_compiler.
    by rewrite load_with_defaults.
  - intros bound verbose data Hnot. unfold Policy.check_policy_compiler.
    destruct data; try done. by destruct (Hnot items).
Qed.

Lemma policy_missing_keys_read_as_empty_witness :
  Policy.check_policy_compiler 30 false (Some (Policy.JArr []))
  = Policy.Raise Policy.AttributeError.
Proof.
  destruct policy_missing_keys_read_as_empty as [_ Hshape].
  apply Hshape. intros items. discriminate.
Defined.

(** * Further properties of the code *)

(** ** CAS: the search and the states it visits *)

Section cas_more.
Import CAS.

(** What a write leaves in place. *)
Lemma write_grows s d c :
  store s ⊆ store (write s d c) ∧
  writes_ok s ⊆ writes_ok (write s d c) ∧
  errors s ⊆ errors (write s d c).
Proof.
  unfold write. destruct (store s !! d) as [c'|] eqn:Hd.
  - case_decide; simpl; split_and!; try done; apply union_subseteq_r.
  - simpl. split_and!; [by apply insert_subseteq | apply union_subseteq_r | done].
Qed.

(** Every stored content is a committed write. *)
Lemma write_store_recorded s d c :
  (∀ d0 c0, store s !! d0 = Some c0 → (d0, c0) ∈ writes_ok s) →
  ∀ d0 c0, store (write s d c) !! d0 = Some c0 → (d0, c0) ∈ writes_ok (write s d c).
Proof.
  intros Hs d0 c0. unfold write. destruct (store s !! d) as [c'|] eqn:Hd.
  - case_decide; simpl; intros H0%Hs; [|done]. apply elem_of_union. by right.
  - simpl. destruct (decide (d = d0)) as [-> | Hne].
    + rewrite lookup_insert_eq. intros [= ->]. apply elem_of_union. left.
      by apply elem_of_singleton.
    + rewrite lookup_insert_ne by done. intros H0%Hs. apply elem_of_union. by right.
Qed.

Lemma reachable_store_recorded s :
  reachable s → ∀ d c, store s !! d = Some c → (d, c) ∈ writes_ok s.
Proof.
  unfold reachable. revert s.
  apply (rtc_ind_r (λ s, ∀ d c, store s !! d = Some c → (d, c) ∈ writes_ok s)).
  - intros d c H. simpl in H. by rewrite lookup_empty in H.
  - intros s0 s _ (d & c & _ & _ & _ & ->)%elem_of_successors IH.
    by apply write_store_recorded.
Qed.

Lemma check_inv1_nil s :
  check_inv1 s = [] ↔
  ∀ d c c', (d, c) ∈ writes_ok s → store s !! d = Some c' → c' = c.
Proof.
  unfold check_inv1. rewrite bind_nil_Forall, Forall_forall. split.
  - intros H d c c' Hin%elem_of_elements Hd. specialize (H _ Hin). simpl in H.
    rewrite Hd in H. by destruct (decide (c' ≠ c)) as [|?%dec_stable].
  - intros H [d c] Hin%elem_of_elements. destruct (store s !! d) as [c'|] eqn:Hd; [|done].
    rewrite decide_False; [done|]. intros Hne. apply Hne. by eapply H.
Qed.

Lemma check_inv2_nil s :
  check_inv2 s = [] ↔
  ∀ d c, (d, c) ∈ writes_ok s → (d, c) ∉ errors s → store s !! d = Some c.
Proof.
  unfold check_inv2. rewrite bind_nil_Forall, Forall_forall. split.
  - intros H d c Hin%elem_of_elements Hne. specialize (H _ Hin). simpl in H.
    rewrite decide_True in H by done. destruct (store s !! d) as [c'|]; [|done].
    destruct (decide (c' ≠ c)) as [|?%dec_stable]; [done|]. by f_equal.
  - intros H [d c] Hin%elem_of_elements. case_decide as Hne; [|done].
    rewrite (H d c Hin Hne). by rewrite decide_False by (intros Hc; by apply Hc).
Qed.

Lemma check_inv4_nil s :
  check_inv4 s = [] ↔
  ∀ d c, (d, c) ∈ errors s → ∃ c', store s !! d = Some c' ∧ c' ≠ c.
Proof.
  unfold check_inv4. rewrite bind_nil_Forall, Forall_forall. split.
  - intros H d c Hin%elem_of_elements. specialize (H _ Hin). simpl in H.
    destruct (store s !! d) as [c'|]; [|done]. exists c'. split; [done|].
    by case_decide.
  - intros H [d c] Hin%elem_of_elements. destruct (H d c Hin) as (c' & -> & Hne).
    by rewrite decide_False.
Qed.

(** The bound only matters below depth 5. *)
Lemma bfs_loop_deep bound : ∀ fuel l,
  (5 ≤ bound)%Z → shallow fuel l = true →
  bfs_loop fuel bound l = bfs_loop fuel 5 l.
Proof.
  induction fuel as [|fuel IH]; intros l Hb Hsh; simpl in *; [done|].
  destruct (running l); [|done].
  apply andb_true_iff in Hsh as [Hhead Hsh].
  assert (bfs_step bound l = bfs_step 5 l) as ->; [|by apply IH].
  unfold bfs_step. destruct (queue l) as [|[s depth] q]; [done|].
  apply orb_true_iff in Hhead as [Hv%bool_decide_eq_true | Hd%bool_decide_eq_true].
  - by rewrite !decide_True by done.
  - case_decide; [done|].
    by rewrite (bool_decide_eq_false_2 (bound ≤ depth)%Z),
               (bool_decide_eq_false_2 (5 ≤ depth)%Z) by lia.
Qed.

Lemma shallow_start : shallow 126 start = true.
Proof. vm_compute. reflexivity. Qed.

Lemma check_cas_5 verbose : check_cas 126 5 verbose = Some (Result true [] 25).
Proof. vm_compute. reflexivity. Qed.

Lemma check_cas_4 verbose : check_cas 126 4 verbose = Some (Result true [] 25).
Proof. vm_compute. reflexivity. Qed.

End cas_more.

Section cas_reach.
Import CAS.

Lemma bfs_step_visited_reachable bound l :
  Forall (λ e, reachable e.1) (queue l) →
  set_Forall reachable (visited l) →
  set_Forall reachable (visited (bfs_step bound l)).
Proof.
  intros Hq Hv. unfold bfs_step. destruct (queue l) as [|[s depth] q]; [done|].
  apply Forall_cons in Hq as [Hs Hq]. simpl in Hs.
  case_decide; [done|].
  assert (set_Forall reachable ({[ state_key s ]} ∪ visited l)).
  { apply set_Forall_union; [by apply set_Forall_singleton | done]. }
  by destruct (_ || _).
Qed.

Lemma bfs_loop_visited_reachable bound : ∀ fuel l l',
  Forall (λ e, reachable e.1) (queue l) → violations l = [] →
  set_Forall reachable (visited l) →
  bfs_loop fuel bound l = Some l' →
  set_Forall reachable (visited l').
Proof.
  induction fuel as [|fuel IH]; intros l l' Hq Hv Hvis; simpl;
    destruct (running l); try done; try (by intros [= <-]).
  destruct (bfs_step_reachable bound l Hq Hv) as [Hq' Hv'].
  apply IH; [done | done |]. by apply bfs_step_visited_reachable.
Qed.

Lemma visited_of_run (P : state → Prop) (o : option loop) :
  (∀ l, o = Some l → set_Forall P (visited l)) →
  set_Forall P (match o with Some l => visited l | None => ∅ end).
Proof.
  destruct o as [l|]; intros H; [by apply H|].
  intros ? Hin. by apply not_elem_of_empty in Hin.
Qed.

Lemma closure_reachable s : s ∈ closure ↔ reachable s.
Proof.
  split.
  - revert s. change (set_Forall reachable closure). unfold closure.
    apply visited_of_run. intros l Hl.
    eapply (bfs_loop_visited_reachable 30 200 start l); [| reflexivity | | exact Hl].
    + apply Forall_singleton. apply rtc_refl.
    + unfold start. cbn [visited]. apply set_Forall_empty.
  - unfold reachable. revert s.
    apply (rtc_ind_r (λ s, s ∈ closure) initial); [apply closure_initial|].
    intros s s' _ Hstep Hs. exact (closure_closed s s' Hs Hstep).
Qed.

End cas_reach.

Section cas_within.
Import CAS.

Lemma within_S n s :
  s ∈ within (S n) ↔ s ∈ within n ∨ ∃ s0, s0 ∈ within n ∧ step s0 s.
Proof.
  cbn [within]. cbv zeta. rewrite elem_of_union, elem_of_list_to_set, list_elem_of_bind.
  split; (intros [? | (s0 & H1 & H2)]; [by left | right; exists s0]).
  - split; [by apply elem_of_elements | done].
  - split; [done | by apply elem_of_elements].
Qed.

Lemma within_mono n m : (n ≤ m)%nat → within n ⊆ within m.
Proof.
  induction 1 as [|m _ IH]; [done|].
  intros s Hs. apply within_S. left. by apply IH.
Qed.

Lemma elem_of_within n s : s ∈ within n ↔ bsteps step n initial s.
Proof.
  split.
  - revert s. induction n as [|n IH]; intros s.
    + cbn [within]. intros ->%elem_of_singleton. apply bsteps_refl.
    + intros [H | (s0 & H0 & Hs)]%within_S.
      * by apply bsteps_S, IH.
      * eapply bsteps_r; [by apply IH | done].
  - revert n s. apply (bsteps_ind_r (λ n s, s ∈ within n)).
    + intros n. apply (within_mono 0); [lia|]. cbn [within]. by apply elem_of_singleton.
    + intros n y z _ Hstep Hy. apply within_S. right. by exists y.
Qed.

Lemma within_closure n : within n ⊆ closure.
Proof.
  intros s Hs%elem_of_within. apply closure_reachable. by eapply rtc_bsteps_2.
Qed.

Lemma within_4_size : size (within 4) = 25%nat.
Proof. vm_compute. reflexivity. Qed.

Lemma within_saturated n : (4 ≤ n)%nat → size (within n) = 25%nat.
Proof.
  intros Hn.
  pose proof (subseteq_size _ _ (within_mono 4 n Hn)) as H1.
  pose proof (subseteq_size _ _ (within_closure n)) as H2.
  rewrite within_4_size in H1. rewrite closure_size in H2. lia.
Qed.

Lemma bfs_loop_more_fuel bound : ∀ fuel fuel' l l',
  bfs_loop fuel bound l = Some l' → (fuel ≤ fuel')%nat →
  bfs_loop fuel' bound l = Some l'.
Proof.
  induction fuel as [|fuel IH]; intros fuel' l l'; simpl.
  - destruct (running l) eqn:Hrun; [done|]. intros [= <-] _.
    destruct fuel'; simpl; by rewrite Hrun.
  - destruct (running l) eqn:Hrun.
    + intros Hl Hle. destruct fuel' as [|fuel']; [lia|]. simpl. rewrite Hrun.
      apply IH; [done | lia].
    + intros [= <-] _. destruct fuel'; simpl; by rewrite Hrun.
Qed.

Lemma check_cas_more_fuel fuel fuel' bound verbose r :
  check_cas fuel bound verbose = Some r → (fuel ≤ fuel')%nat →
  check_cas fuel' bound verbose = Some r.
Proof.
  unfold check_cas. destruct (bfs_loop fuel bound start) as [l|] eqn:Hl; [|done].
  intros Hr Hle. by rewrite (bfs_loop_more_fuel _ _ _ _ _ Hl Hle).
Qed.

Lemma check_cas_0 bound verbose :
  (bound ≤ 0)%Z → check_cas 126 bound verbose = Some (Result true [] 1).
Proof.
  intros Hb. unfold check_cas. cbn [bfs_loop].
  assert (bfs_step bound start = Loop [] ({[ initial ]} ∪ ∅) [] 1) as ->; [|done].
  unfold bfs_step. simpl. by rewrite (bool_decide_eq_true_2 (bound ≤ 0)%Z).
Qed.

Lemma check_cas_1 verbose :
  check_cas 126 1 verbose = Some (Result true [] (size (within 1))).
Proof. vm_compute. reflexivity. Qed.

Lemma check_cas_2 verbose :
  check_cas 126 2 verbose = Some (Result true [] (size (within 2))).
Proof. vm_compute. reflexivity. Qed.

Lemma check_cas_3 verbose :
  check_cas 126 3 verbose = Some (Result true [] (size (within 3))).
Proof. vm_compute. reflexivity. Qed.

Lemma check_cas_from_4 bound verbose :
  (4 ≤ bound)%Z → check_cas 126 bound verbose = Some (Result true [] 25).
Proof.
  intros Hb. destruct (decide (bound = 4%Z)) as [-> | Hne]; [apply check_cas_4|].
  rewrite <- (check_cas_5 verbose). unfold check_cas.
  rewrite (bfs_loop_deep bound); [done | lia | apply shallow_start].
Qed.

Lemma check_cas_within bound verbose :
  check_cas 126 bound verbose
  = Some (Result true [] (size (within (Z.to_nat bound)))).
Proof.
  destruct (decide (bound ≤ 0)%Z) as [H0|H0].
  { rewrite check_cas_0 by done. replace (Z.to_nat bound) with 0%nat by lia.
    cbn [within]. by rewrite size_singleton. }
  destruct (decide (4 ≤ bound)%Z) as [H4|H4].
  { rewrite check_cas_from_4 by done. by rewrite within_saturated by lia. }
  assert (bound = 1 ∨ bound = 2 ∨ bound = 3)%Z as [-> | [-> | ->]] by lia.
  - apply check_cas_1.
  - apply check_cas_2.
  - apply check_cas_3.
Qed.

End cas_within.

(** X1. The CAS search is exhaustive within its bound. It returns for every
    bound after at most 126 passes through its loop, it passes, and the
    number of states it reports is the number of distinct states that at
    most [bound] writes lead to from the empty store. *)
Theorem cas_search_exhaustive (fuel : nat) (bound : Z) (verbose : bool) :
  (126 ≤ fuel)%nat →
  (∀ s, s ∈ within (Z.to_nat bound) ↔
        bsteps CAS.step (Z.to_nat bound) CAS.initial s) ∧
  CAS.check_cas fuel bound verbose
  = Some (CAS.Result true [] (size (within (Z.to_nat bound)))).
Proof.
  intros Hfuel. split; [intros s; apply elem_of_within|].
  eapply check_cas_more_fuel; [apply check_cas_within | done].
Qed.

Lemma cas_search_exhaustive_witness :
  (∀ s, s ∈ within 2 ↔ bsteps CAS.step 2 CAS.initial s) ∧
  CAS.check_cas 200 2 false = Some (CAS.Result true [] (size (within 2))).
Proof. apply (cas_search_exhaustive 200 2 false). lia. Defined.

(** X2. The number of states by bound: between 1 and 25 for every bound,
    only the initial state when the bound is not positive, all 25 reachable
    states from bound 4 on. *)
Theorem cas_states_by_bound (fuel : nat) (bound : Z) (verbose : bool) :
  (126 ≤ fuel)%nat →
  ∃ n, CAS.check_cas fuel bound verbose = Some (CAS.Result true [] n) ∧
       (1 ≤ n ≤ 25)%nat ∧
       ((bound ≤ 0)%Z → n = 1%nat) ∧
       ((4 ≤ bound)%Z → n = 25%nat).
Proof.
  intros Hfuel. exists (size (within (Z.to_nat bound))). split.
  { eapply check_cas_more_fuel; [apply check_cas_within | done]. }
  assert (H0 : (0 ≤ Z.to_nat bound)%nat) by lia.
  pose proof (subseteq_size _ _ (within_mono 0 (Z.to_nat bound) H0)) as H1.
  pose proof (subseteq_size _ _ (within_closure (Z.to_nat bound))) as H2.
  cbn [within] in H1. rewrite size_singleton in H1. rewrite closure_size in H2.
  split; [lia|]. split.
  - intros Hb. replace (Z.to_nat bound) with 0%nat by lia.
    cbn [within]. by rewrite size_singleton.
  - intros Hb. apply within_saturated. lia.
Qed.

Lemma cas_states_by_bound_witness :
  ∃ n, CAS.check_cas 126 30 false = Some (CAS.Result true [] n) ∧
       (1 ≤ n ≤ 25)%nat ∧ ((30 ≤ 0)%Z → n = 1%nat) ∧ ((4 ≤ 30)%Z → n = 25%nat).
Proof. apply (cas_states_by_bound 126 30 false). lia. Defined.

(** X3. The CAS model has exactly 25 reachable states: they are the states
    the search visits with the default bound. *)
Theorem cas_reachable_states :
  (∀ s, CAS.reachable s ↔ s ∈ closure) ∧ size closure = 25%nat.
Proof. split; [intros s; symmetry; apply closure_reachable | apply closure_size]. Qed.

(** X4. From a reachable state the branch marked idempotent (lines 102-103)
    is never taken: a write the guard lets through either commits to a
    digest that is free, or is rejected as a collision with different
    content and changes only the errors. It leads back to the same state
    exactly when it repeats a collision already rejected. *)
Theorem cas_enabled_write (s : CAS.state) (d c : string) :
  CAS.reachable s → (d, c) ∉ CAS.writes_ok s →
  match CAS.store s !! d with
  | None =>
      CAS.write s d c
      = CAS.State (<[d := c]> (CAS.store s)) ({[ (d, c) ]} ∪ CAS.writes_ok s)
                  (CAS.errors s)
  | Some c' =>
      c' ≠ c ∧
      CAS.write s d c
      = CAS.State (CAS.store s) (CAS.writes_ok s) ({[ (d, c) ]} ∪ CAS.errors s)
  end ∧
  (CAS.write s d c = s ↔ (d, c) ∈ CAS.errors s).
Proof.
  intros Hr Hguard. unfold CAS.write.
  destruct (CAS.store s !! d) as [c'|] eqn:Hd.
  - assert (Hne : c' ≠ c).
    { intros ->. by apply Hguard, reachable_store_recorded. }
    rewrite decide_False by done. split; [done|].
    destruct s as [st w e]. simpl in *. split.
    + intros [= He]. rewrite <- He. apply elem_of_union. left. by apply elem_of_singleton.
    + intros Hin. f_equal. apply (anti_symm (⊆)); [|apply union_subseteq_r].
      apply union_subseteq. split; [by apply singleton_subseteq_l | done].
  - split; [done|]. split.
    + intros Heq. rewrite <- Heq in Hd. simpl in Hd.
      by rewrite lookup_insert_eq in Hd.
    + intros (c' & Hc' & _)%(reachable_errors_accurate s Hr). congruence.
Qed.

Lemma cas_enabled_write_witness :
  match CAS.store (CAS.write CAS.initial "d1" "c_a") !! "d1" with
  | None =>
      CAS.write (CAS.write CAS.initial "d1" "c_a") "d1" "c_b"
      = CAS.State (<["d1" := "c_b"]> (CAS.store (CAS.write CAS.initial "d1" "c_a")))
                  ({[ ("d1", "c_b") ]} ∪ CAS.writes_ok (CAS.write CAS.initial "d1" "c_a"))
                  (CAS.errors (CAS.write CAS.initial "d1" "c_a"))
  | Some c' =>
      c' ≠ "c_b" ∧
      CAS.write (CAS.write CAS.initial "d1" "c_a") "d1" "c_b"
      = CAS.State (CAS.store (CAS.write CAS.initial "d1" "c_a"))
                  (CAS.writes_ok (CAS.write CAS.initial "d1" "c_a"))
                  ({[ ("d1", "c_b") ]} ∪ CAS.errors (CAS.write CAS.initial "d1" "c_a"))
  end ∧
  (CAS.write (CAS.write CAS.initial "d1" "c_a") "d1" "c_b"
   = CAS.write CAS.initial "d1" "c_a" ↔
   ("d1", "c_b") ∈ CAS.errors (CAS.write CAS.initial "d1" "c_a")).
Proof.
  apply cas_enabled_write.
  - apply rtc_once, step_write; compute_done.
  - compute_done.
Defined.

(** X5. In a reachable state the store holds exactly the committed writes,
    and no pair is both a committed write and a collision error. *)
Theorem cas_store_is_committed_writes (s : CAS.state) :
  CAS.reachable s →
  (∀ d c, CAS.store s !! d = Some c ↔ (d, c) ∈ CAS.writes_ok s) ∧
  CAS.writes_ok s ## CAS.errors s.
Proof.
  intros Hr. split.
  - intros d c. split; [by apply reachable_store_recorded|].
    by apply reachable_writes_recorded.
  - apply elem_of_disjoint. intros [d c] Hw He.
    apply (reachable_writes_recorded s Hr) in Hw.
    apply (reachable_errors_accurate s Hr) in He as (c' & Hc' & Hne). congruence.
Qed.

Lemma cas_store_is_committed_writes_witness :
  (∀ d c, CAS.store (CAS.write CAS.initial "d2" "c_b") !! d = Some c ↔
          (d, c) ∈ CAS.writes_ok (CAS.write CAS.initial "d2" "c_b")) ∧
  CAS.writes_ok (CAS.write CAS.initial "d2" "c_b")
  ## CAS.errors (CAS.write CAS.initial "d2" "c_b").
Proof.
  apply cas_store_is_committed_writes.
  apply rtc_once, step_write; compute_done.
Defined.

(** X6. Along the transitions nothing is ever removed: the store, the
    committed writes and the collision errors only grow. *)
Theorem cas_state_only_grows (s s' : CAS.state) :
  rtc CAS.step s s' →
  CAS.store s ⊆ CAS.store s' ∧
  CAS.writes_ok s ⊆ CAS.writes_ok s' ∧
  CAS.errors s ⊆ CAS.errors s'.
Proof.
  induction 1 as [s | s s1 s' Hstep _ (IH1 & IH2 & IH3)]; [done|].
  apply elem_of_successors in Hstep as (d & c & _ & _ & _ & ->).
  destruct (write_grows s d c) as (H1 & H2 & H3).
  split_and!; etrans; done.
Qed.

Lemma cas_state_only_grows_witness :
  CAS.store CAS.initial ⊆ CAS.store (CAS.write CAS.initial "d1" "c_a") ∧
  CAS.writes_ok CAS.initial ⊆ CAS.writes_ok (CAS.write CAS.initial "d1" "c_a") ∧
  CAS.errors CAS.initial ⊆ CAS.errors (CAS.write CAS.initial "d1" "c_a").
Proof.
  apply cas_state_only_grows. apply rtc_once, step_write; compute_done.
Defined.

(** X7. The invariant evaluator is exact on every state, reachable or not:
    it reports nothing if and only if the three invariants it names hold. *)
Theorem cas_evaluator_exact (s : CAS.state) :
  CAS.check_invariants s = [] ↔ cas_invariants s.
Proof.
  unfold CAS.check_invariants, cas_invariants.
  by rewrite !app_nil, check_inv1_nil, check_inv2_nil, check_inv4_nil.
Qed.

(** ** Protocol: the streams explored *)

Section protocol_more.
Import Protocol.

Lemma check_state_cases stream terminated :
  check_state stream terminated = None ∨
  (∃ f, check_state stream terminated = Some (PROTO_INV_1 f)) ∨
  (∃ f, check_state stream terminated = Some (PROTO_INV_2 f)).
Proof.
  unfold check_state.
  destruct (first_frame stream) as [e1|] eqn:H1.
  { right; left. unfold first_frame in H1. destruct stream as [|f tl]; [done|].
    case_decide; [|done]. injection H1 as <-. by exists f. }
  destruct (last_frame stream terminated) as [e2|] eqn:H2.
  { right; right. unfold last_frame in H2. destruct terminated; [|done].
    destruct (last stream) as [f|].
    - case_decide; [|done]. injection H2 as <-. by exists f.
    - injection H2 as <-. by exists "none". }
  left. apply event_first_None. unfold first_frame in H1.
  destruct stream as [|f tl]; [done|]. simpl.
  destruct (decide (f = "start")) as [-> | Hne]; [done|].
  by rewrite decide_True in H1.
Qed.

Lemma step_actions stream terminated st' :
  step (stream, terminated) st' → terminated = false ∧ st' ∈ actions stream.
Proof.
  inversion 1 as [| s Hh | s Hh Hend | s Hh | s Hh]; subst; (split; [done|]).
  - by left.
  - destruct stream as [|f tl]; [done|]. injection Hh as ->.
    unfold actions. rewrite decide_True by done. by left.
  - destruct stream as [|f tl]; [done|]. injection Hh as ->.
    unfold actions. rewrite decide_True by done. right.
    rewrite decide_True by done. by left.
  - destruct stream as [|f tl]; [done|]. injection Hh as ->.
    unfold actions. rewrite decide_True by done. right.
    apply elem_of_app. right. by left.
  - destruct stream as [|f tl]; [done|]. injection Hh as ->.
    unfold actions. rewrite decide_True by done. right.
    apply elem_of_app. right. right. by left.
Qed.

(** The loop over the children of a state. *)
Lemma fold_explore_grows (P : list string * bool → Prop) fuel bound depth
    (l : list (list string * bool)) : ∀ r0 r',
  (∀ c r1 r2, c ∈ l → explore fuel bound c.1 c.2 depth r1 = Some r2 → grows P r1 r2) →
  foldM (λ r '(s, t), explore fuel bound s t depth r) r0 l = Some r' →
  grows P r0 r'.
Proof.
  induction l as [|[s t] l IH]; intros r0 r' Hc He; simpl in He.
  - injection He as <-. apply grows_refl.
  - destruct (explore fuel bound s t depth r0) as [r1|] eqn:E; [simpl in He|done].
    apply (grows_trans _ _ r1).
    + apply (Hc (s, t)); [left | done].
    + apply IH; [|done]. intros c r2 r3 Hin. apply Hc. by right.
Qed.

Lemma grows_trace_elem P r r' st : grows P r r' → st ∈ trace r → st ∈ trace r'.
Proof. intros (_ & tr & -> & _) Hin. apply elem_of_app. by left. Qed.

(** The states a call visits are those within the levels left. *)
Lemma explore_bsteps fuel : ∀ bound stream terminated depth r r',
  well_formed (stream, terminated) →
  explore fuel bound stream terminated depth r = Some r' →
  grows (bsteps step (Z.to_nat (bound - depth)) (stream, terminated)) r r'.
Proof.
  induction fuel as [|fuel IH]; intros bound stream terminated depth r r' Hwf He; [done|].
  rewrite explore_S, (check_state_well_formed _ _ Hwf) in He. simpl in He.
  set (r0 := Run (S (explored r)) (violations r) (trace r ++ [(stream, terminated)])) in *.
  assert (H0 : grows (bsteps step (Z.to_nat (bound - depth)) (stream, terminated)) r r0).
  { split; [done|]. exists [(stream, terminated)]. split_and!; simpl; [done| |lia].
    apply Forall_singleton. apply bsteps_refl. }
  destruct (terminated || bool_decide (bound ≤ depth)%Z) eqn:Hstop.
  { by injection He as <-. }
  apply orb_false_iff in Hstop as [-> Hd%bool_decide_eq_false].
  apply (grows_trans _ _ r0); [done|]. clear H0.
  eapply fold_explore_grows; [|done].
  intros [s t] r1 r2 Hin E. simpl in E.
  apply actions_step in Hin.
  apply IH in E; [|by eapply step_well_formed].
  eapply grows_mono; [|done]. intros st Hst.
  replace (Z.to_nat (bound - depth)) with (S (Z.to_nat (bound - (depth + 1)))) by lia.
  by eapply bsteps_l.
Qed.

Lemma explore_visits fuel : ∀ bound stream terminated depth r r' st,
  well_formed (stream, terminated) →
  explore fuel bound stream terminated depth r = Some r' →
  bsteps step (Z.to_nat (bound - depth)) (stream, terminated) st →
  st ∈ trace r'.
Proof.
  induction fuel as [|fuel IH];
    intros bound stream terminated depth r r' st Hwf He Hst; [done|].
  rewrite explore_S, (check_state_well_formed _ _ Hwf) in He. simpl in He.
  set (r0 := Run (S (explored r)) (violations r) (trace r ++ [(stream, terminated)])) in *.
  assert (Hroot : (stream, terminated) ∈ trace r0).
  { simpl. apply elem_of_app. right. by left. }
  remember (Z.to_nat (bound - depth)) as k eqn:Hk.
  destruct (terminated || bool_decide (bound ≤ depth)%Z) eqn:Hstop.
  { injection He as <-.
    inversion Hst as [| n x y z Hstep Hrest]; subst; [done|].
    apply step_actions in Hstep as [-> _]. simpl in Hstop.
    apply bool_decide_eq_true in Hstop. lia. }
  apply orb_false_iff in Hstop as [-> Hd%bool_decide_eq_false].
  assert (Hfold : ∀ l ra rb,
             (∀ c, c ∈ l → step (stream, false) c) →
             foldM (λ r '(s, t), explore fuel bound s t (depth + 1) r) ra l = Some rb →
             grows (λ _, True) ra rb).
  { intros l ra rb Hl Hf. eapply fold_explore_grows; [|done].
    intros [s t] r1 r2 Hin E. simpl in E.
    apply explore_bsteps in E; [|by eapply step_well_formed, Hl].
    by eapply grows_mono. }
  inversion Hst as [| n x y z Hstep Hrest]; subst.
  { eapply grows_trace_elem; [|done]. eapply Hfold; [|done]. apply actions_step. }
  apply step_actions in Hstep as [_ Hy].
  assert (Hn : n = Z.to_nat (bound - (depth + 1))) by lia. subst n.
  pose proof (actions_step stream) as Hact.
  revert He Hy Hact. generalize r0. clear Hroot.
  induction (actions stream) as [|[s t] l IHl]; intros ra He Hy Hact.
  { by apply elem_of_nil in Hy. }
  simpl in He.
  destruct (explore fuel bound s t (depth + 1) ra) as [r1|] eqn:E; [simpl in He|done].
  apply elem_of_cons in Hy as [-> | Hy].
  - eapply grows_trace_elem.
    + eapply Hfold; [|done]. intros c Hc. apply Hact. by right.
    + eapply IH; [|done..]. eapply step_well_formed, Hact. by left.
  - eapply IHl; [done | done |]. intros c Hc. apply Hact. by right.
Qed.

(** Counting the calls. *)
Lemma explore_terminated fuel bound stream depth r :
  well_formed (stream, true) →
  explore (S fuel) bound stream true depth r
  = Some (Run (S (explored r)) (violations r) (trace r ++ [(stream, true)])).
Proof. intros Hwf. by rewrite explore_S, (check_state_well_formed _ _ Hwf). Qed.

Lemma well_formed_open stream :
  head stream = Some "start" → well_formed (stream, false).
Proof. intros Hh. split; [by right | done]. Qed.

Lemma well_formed_closed stream f :
  head stream = Some "start" → f ∈ TERMINAL → well_formed (stream ++ [f], true).
Proof.
  intros Hh Hf. split; simpl; [right; by apply head_snoc_start|].
  intros _. exists f. by rewrite last_snoc.
Qed.

Lemma explore_count fuel : ∀ bound stream depth r,
  head stream = Some "start" →
  (Z.to_nat (bound - depth) < fuel)%nat →
  ∃ r', explore fuel bound stream false depth r = Some r' ∧
        explored r' = (explored r +
                       if decide ("end" ∈ stream)
                       then count_end (Z.to_nat (bound - depth))
                       else count_noend (Z.to_nat (bound - depth)))%nat.
Proof.
  induction fuel as [|fuel IH]; intros bound stream depth r Hh Hfuel; [lia|].
  rewrite explore_S, (check_state_well_formed _ _ (well_formed_open _ Hh)).
  cbn [orb]. case_bool_decide as Hd.
  { eexists. split; [done|]. simpl.
    replace (Z.to_nat (bound - depth)) with 0%nat by lia.
    destruct (decide ("end" ∈ stream)); unfold count_end; simpl; lia. }
  replace (Z.to_nat (bound - depth)) with (S (Z.to_nat (bound - (depth + 1)))) by lia.
  set (m := Z.to_nat (bound - (depth + 1))).
  assert (Hm : (m < fuel)%nat) by lia.
  destruct fuel as [|fuel']; [lia|].
  unfold actions. destruct stream as [|f tl]; [done|]. injection Hh as ->.
  rewrite decide_True by done.
  set (stream := "start" :: tl) in *.
  assert (Hhs : head stream = Some "start") by done.
  set (r0 := Run _ _ _).
  cbn [app foldM].
  destruct (IH bound (stream ++ ["event"]) (depth + 1)%Z r0) as (r1 & -> & H1);
    [by apply head_snoc_start | done |].
  cbn [mbind option_bind].
  assert (Hev : "end" ∈ stream ++ ["event"] ↔ "end" ∈ stream).
  { rewrite elem_of_app, list_elem_of_singleton. split; [|by left].
    by intros [? | [=]]. }
  destruct (decide ("end" ∈ stream)) as [Hend | Hend].
  - rewrite decide_True in H1 by by apply Hev.
    rewrite decide_False by (by intros Hn; apply Hn).
    cbn [app foldM].
    rewrite (explore_terminated fuel' bound (stream ++ ["result"]))
      by (apply well_formed_closed; [done | compute_done]).
    cbn [mbind option_bind].
    rewrite (explore_terminated fuel' bound (stream ++ ["error"]))
      by (apply well_formed_closed; [done | compute_done]).
    cbn [mbind option_bind].
    eexists. split; [done|]. cbn [explored]. rewrite H1. unfold r0, count_end.
    cbn [explored]. fold m. lia.
  - rewrite decide_False in H1 by (by rewrite Hev).
    rewrite decide_True by done.
    cbn [app foldM].
    destruct (IH bound (stream ++ ["end"]) (depth + 1)%Z r1) as (r2 & -> & H2);
      [by apply head_snoc_start | done |].
    cbn [mbind option_bind].
    rewrite decide_True in H2
      by (apply elem_of_app; right; by apply list_elem_of_singleton).
    rewrite (explore_terminated fuel' bound (stream ++ ["result"]))
      by (apply well_formed_closed; [done | compute_done]).
    cbn [mbind option_bind].
    rewrite (explore_terminated fuel' bound (stream ++ ["error"]))
      by (apply well_formed_closed; [done | compute_done]).
    cbn [mbind option_bind].
    eexists. split; [done|]. cbn [explored]. rewrite H2, H1. unfold r0.
    cbn [explored count_noend]. fold m. lia.
Qed.

Lemma count_noend_closed n : (2 * count_noend n = 3 * n * n + 5 * n + 2)%nat.
Proof. induction n as [|n IH]; [done|]. cbn [count_noend]. unfold count_end. lia. Qed.

Lemma filter_end_nil (body : list string) :
  "end" ∉ body ↔ filter (λ f, f = "end") body = [].
Proof.
  split.
  - induction body as [|f body IH]; [done|].
    intros [Hne Hnot]%not_elem_of_cons.
    rewrite filter_cons_False by done. by apply IH.
  - intros Hnil. by eapply filter_nil_not_elem_of.
Qed.

Lemma step_stream_shape st st' : step st st' → stream_shape st → stream_shape st'.
Proof.
  assert (Hopen : ∀ stream, head stream = Some "start" → stream_shape (stream, false) →
            ∃ body, stream = "start" :: body ∧
                    Forall (λ f, f = "event" ∨ f = "end") body ∧
                    (length (filter (λ f, f = "end") body) ≤ 1)%nat).
  { intros stream Hh [[= ->] | (body & closing & Hs & Hb & Hc & Hcl)]; [done|].
    simpl in *. destruct Hcl as [[_ ->] | [[=] _]].
    rewrite app_nil_r in Hs. by exists body. }
  destruct 1 as [| stream Hh | stream Hh Hend | stream Hh | stream Hh]; intros Hsh.
  - right. exists [], []. split_and!; simpl; [done | done | lia | by left].
  - destruct (Hopen _ Hh Hsh) as (body & -> & Hb & Hc).
    right. exists (body ++ ["event"]), []. simpl. split_and!.
    + by rewrite app_nil_r.
    + apply Forall_app. split; [done|]. apply Forall_singleton. by left.
    + by rewrite filter_app, filter_singleton_False, app_nil_r.
    + by left.
  - destruct (Hopen _ Hh Hsh) as (body & -> & Hb & Hc).
    right. exists (body ++ ["end"]), []. simpl. split_and!.
    + by rewrite app_nil_r.
    + apply Forall_app. split; [done|]. apply Forall_singleton. by right.
    + apply not_elem_of_cons in Hend as [_ Hend%filter_end_nil].
      by rewrite filter_app, Hend, filter_singleton_True.
    + by left.
  - destruct (Hopen _ Hh Hsh) as (body & -> & Hb & Hc).
    right. exists body, ["result"]. simpl. split_and!; [done..|]. right. split; [done | by left].
  - destruct (Hopen _ Hh Hsh) as (body & -> & Hb & Hc).
    right. exists body, ["error"]. simpl. split_and!; [done..|]. right. split; [done | by right].
Qed.

Lemma open_stream_reachable (body : list string) :
  Forall (λ f, f = "event" ∨ f = "end") body →
  (length (filter (λ f, f = "end") body) ≤ 1)%nat →
  reachable ("start" :: body, false).
Proof.
  induction body as [|f body IH] using rev_ind; intros Hb Hc.
  - apply rtc_once. constructor.
  - apply Forall_app in Hb as [Hb Hf]. rewrite Forall_singleton in Hf.
    rewrite filter_app, length_app in Hc.
    destruct Hf as [Hf | Hf]; subst f.
    + eapply rtc_r; [apply IH; [done | lia]|].
      by apply (step_event ("start" :: body)).
    + rewrite filter_singleton_True in Hc by done. simpl in Hc.
      eapply rtc_r; [apply IH; [done | lia]|].
      apply (step_end ("start" :: body)); [done|].
      apply not_elem_of_cons. split; [done|]. apply filter_end_nil.
      apply length_zero_iff_nil. lia.
Qed.

End protocol_more.

Section protocol_nodup.
Import Protocol.

Lemma step_extends st st' : step st st' → ∃ f, st'.1 = st.1 ++ [f].
Proof. destruct 1; simpl; by eexists. Qed.

(** The children of a state: streams one frame longer, all different. *)
Lemma actions_children stream :
  NoDup (actions stream).*1 ∧
  Forall (λ c, length c.1 = S (length stream)) (actions stream).
Proof.
  split.
  - unfold actions. destruct stream as [|f tl]; [apply NoDup_singleton|].
    case_decide; [|apply NoDup_nil_2]. set (s := f :: tl).
    assert (Hinj : Inj (=) (=) (λ x : string, s ++ [x])).
    { intros a b Hab. by apply app_inv_head in Hab as [= ->]. }
    case_decide.
    + change (NoDup ((λ x, s ++ [x]) <$> ["event"; "end"; "result"; "error"])).
      apply (NoDup_fmap_2 _). compute_done.
    + change (NoDup ((λ x, s ++ [x]) <$> ["event"; "result"; "error"])).
      apply (NoDup_fmap_2 _). compute_done.
  - apply Forall_forall. intros c [f Hf]%actions_step%step_extends.
    rewrite Hf, length_app. simpl. lia.
Qed.

(** The loop over the children visits no state twice. *)
Lemma fold_explore_nodup fuel bound depth k (l : list (list string * bool)) :
  ∀ r0 r',
  (∀ c r1 r2, c ∈ l → explore fuel bound c.1 c.2 depth r1 = Some r2 →
     ∃ tr, trace r2 = trace r1 ++ tr ∧ NoDup tr ∧
           Forall (λ st, c.1 `prefix_of` st.1) tr) →
  NoDup l.*1 → Forall (λ c, length c.1 = k) l →
  foldM (λ r '(s, t), explore fuel bound s t depth r) r0 l = Some r' →
  ∃ tr, trace r' = trace r0 ++ tr ∧ NoDup tr ∧
        Forall (λ st, ∃ c, c ∈ l ∧ c.1 `prefix_of` st.1) tr.
Proof.
  induction l as [|[s t] l IH]; intros r0 r' Hc Hnd Hlen He; simpl in He.
  - injection He as <-. exists [].
    split_and!; [by rewrite app_nil_r | apply NoDup_nil_2 | apply Forall_nil_2].
  - destruct (explore fuel bound s t depth r0) as [r1|] eqn:E; [simpl in He|done].
    rewrite fmap_cons in Hnd. apply NoDup_cons in Hnd as [Hs Hnd].
    apply Forall_cons in Hlen as [Hk Hlen]. simpl in Hs, Hk.
    destruct (Hc (s, t) r0 r1) as (tr1 & Htr1 & Hnd1 & Hall1); [left | exact E |].
    destruct (IH r1 r') as (tr2 & Htr2 & Hnd2 & Hall2);
      [intros c ra rb Hin; apply Hc; by right | done | done | done |].
    exists (tr1 ++ tr2). split_and!.
    + by rewrite Htr2, Htr1, (assoc_L (++)).
    + apply NoDup_app. split_and!; [done | | done].
      intros st H1 H2. rewrite Forall_forall in Hall1, Hall2, Hlen.
      destruct (Hall1 st H1) as [k1 Hk1]. simpl in Hk1.
      destruct (Hall2 st H2) as (c & Hin & [k2 Hk2]).
      apply Hs. apply list_elem_of_fmap. exists c. split; [|done].
      rewrite Hk1 in Hk2. apply app_inj_1 in Hk2 as [-> _]; [done|].
      rewrite (Hlen c Hin). done.
    + apply Forall_app. split.
      * eapply Forall_impl; [done|]. intros st Hst. exists (s, t). split; [left | done].
      * eapply Forall_impl; [done|]. intros st (c & Hin & Hst). exists c.
        split; [by right | done].
Qed.

(** A call visits no state twice, and only states below its own. *)
Lemma explore_nodup fuel : ∀ bound stream terminated depth r r',
  well_formed (stream, terminated) →
  explore fuel bound stream terminated depth r = Some r' →
  ∃ tr, trace r' = trace r ++ tr ∧ NoDup tr ∧
        Forall (λ st, stream `prefix_of` st.1) tr.
Proof.
  induction fuel as [|fuel IH]; intros bound stream terminated depth r r' Hwf He; [done|].
  rewrite explore_S, (check_state_well_formed _ _ Hwf) in He. simpl in He.
  destruct (terminated || bool_decide (bound ≤ depth)%Z) eqn:Hstop.
  { injection He as <-. exists [(stream, terminated)]. simpl.
    split_and!; [done | apply NoDup_singleton | by apply Forall_singleton]. }
  apply orb_false_iff in Hstop as [-> _].
  destruct (actions_children stream) as [Hnd Hlen].
  apply (fold_explore_nodup _ _ _ (S (length stream))) in He
    as (tr & Htr & Hndtr & Hall); [|
      intros c r1 r2 Hin E; apply IH in E; [done|];
      destruct c; by eapply step_well_formed, actions_step | done | done].
  simpl in Htr. exists ((stream, false) :: tr). split_and!.
  - by rewrite Htr, <- (assoc_L (++)).
  - apply NoDup_cons. split; [|done]. intros Hin.
    rewrite Forall_forall in Hall, Hlen.
    destruct (Hall _ Hin) as (c & Hc & Hpre). simpl in Hpre.
    apply prefix_length in Hpre. rewrite (Hlen c Hc) in Hpre. lia.
  - apply Forall_cons. split; [done|].
    eapply Forall_impl; [done|]. intros st (c & Hc & Hpre). simpl.
    etrans; [|done]. apply actions_step, step_extends in Hc as [f ->].
    by apply prefix_app_r.
Qed.

End protocol_nodup.

(** X8. PROTO-INV-4 is never reported: a state with 'event' at index 0
    already fails the test on the first frame, which returns PROTO-INV-1. *)
Theorem protocol_inv4_never_reported (stream : list string) (terminated : bool) :
  Protocol.check_state stream terminated ≠ Some Protocol.PROTO_INV_4.
Proof.
  destruct (check_state_cases stream terminated) as [-> | [[f ->] | [f ->]]]; done.
Qed.

(** X9. [check_state] accepts a state exactly when the stream is empty or
    begins with 'start' and, if terminated, ends with 'result' or 'error';
    an empty terminated stream is rejected. *)
Theorem protocol_check_state_exact (stream : list string) (terminated : bool) :
  Protocol.check_state stream terminated = None ↔
  (stream = [] ∨ head stream = Some "start") ∧
  (terminated = true → last stream = Some "result" ∨ last stream = Some "error").
Proof.
  split.
  - intros [Hfirst Hlast]%check_state_None. split; [done|].
    intros Ht. destruct (Hlast Ht) as (f & Hl & Hf). simpl in *. rewrite Hl.
    apply elem_of_union in Hf as [->%elem_of_singleton | ->%elem_of_singleton]; eauto.
  - intros [Hfirst Hlast]. apply check_state_well_formed. split; [done|].
    intros Ht. simpl in *. destruct (Hlast Ht) as [-> | ->]; eexists; (split; [done|]);
      compute_done.
Qed.

(** X10. The states reachable by the actions are exactly the empty stream
    and the streams 'start', then 'event'/'end' tags with at most one 'end',
    then 'result' or 'error' if and only if terminated. *)
Theorem protocol_reachable_streams (st : list string * bool) :
  Protocol.reachable st ↔ stream_shape st.
Proof.
  split.
  - unfold Protocol.reachable. revert st. apply rtc_ind_r; [by left|].
    intros st st' _ Hstep IH. by eapply step_stream_shape.
  - intros [-> | (body & closing & Hs & Hb & Hc & Hcl)]; [apply rtc_refl|].
    destruct st as [stream t]. simpl in *. subst stream.
    pose proof (open_stream_reachable body Hb Hc) as Hopen.
    destruct Hcl as [[-> ->] | [-> [-> | ->]]].
    + by rewrite app_nil_r.
    + eapply rtc_r; [done|]. by apply (Protocol.step_result ("start" :: body)).
    + eapply rtc_r; [done|]. by apply (Protocol.step_error ("start" :: body)).
Qed.

(** X11. The depth-first enumeration is exhaustive and visits no state
    twice: the states on which [explore] is called from the empty stream are
    exactly the states reachable in at most [bound] actions (the empty
    stream alone when the bound is not positive), each of them is visited
    once, and the number of states counted is their number. *)
Theorem protocol_dfs_exhaustive (fuel : nat) (bound : Z) (r : Protocol.run) :
  Protocol.explore fuel bound [] false 0 (Protocol.Run 0 [] []) = Some r →
  (∀ st, st ∈ Protocol.trace r ↔
         bsteps Protocol.step (Z.to_nat bound) ([], false) st) ∧
  NoDup (Protocol.trace r) ∧
  Protocol.explored r = length (Protocol.trace r).
Proof.
  assert (Hinit : well_formed ([], false)) by (split; [by left | done]).
  intros He. split_and!.
  - intros st. split.
    + intros Hin. apply explore_bsteps in He as (_ & tr & Htr & Hall & _); [|done].
      simpl in Htr. subst tr. rewrite Forall_forall in Hall.
      rewrite Z.sub_0_r in Hall. by apply Hall.
    + intros Hst. eapply explore_visits; [done | done |]. by rewrite Z.sub_0_r.
  - apply explore_nodup in He as (tr & Htr & Hnd & _); [|done].
    simpl in Htr. by rewrite Htr.
  - apply explore_bsteps in He as (_ & tr & Htr & _ & Hn); [|done].
    simpl in Htr, Hn. by rewrite Htr, Hn.
Qed.

Lemma protocol_dfs_exhaustive_witness :
  ∃ r, Protocol.explore 4 3 [] false 0 (Protocol.Run 0 [] []) = Some r ∧
       (["start"; "end"; "error"], true) ∈ Protocol.trace r ∧
       Protocol.explored r = length (Protocol.trace r).
Proof.
  destruct (Protocol.explore 4 3 [] false 0 (Protocol.Run 0 [] [])) as [r|] eqn:He;
    [|discriminate He].
  exists r. split; [done|].
  destruct (protocol_dfs_exhaustive 4 3 r He) as (Hex & _ & Hn).
  split; [|exact Hn]. apply Hex.
  apply bsteps_l with (["start"], false); [constructor|].
  apply bsteps_l with (["start"; "end"], false);
    [by apply (Protocol.step_end ["start"]); [done | compute_done]|].
  apply bsteps_once. by apply (Protocol.step_error ["start"; "end"]).
Defined.

(** X12. The number of states the Protocol check reports is quadratic in the
    bound: 1 when the bound is not positive, and (3b² - b + 2) / 2 for a
    bound b >= 0 (13 for 3, 1336 for the default 30). *)
Theorem protocol_states_explored (fuel : nat) (bound : Z) (verbose : bool) :
  (Z.to_nat bound < fuel)%nat →
  ∃ n, Protocol.check_protocol fuel bound verbose
       = Some (Protocol.Result true [] n) ∧
       ((bound ≤ 0)%Z → n = 1%nat) ∧
       ((0 ≤ bound)%Z → (2 * Z.of_nat n = 3 * bound * bound - bound + 2)%Z).
Proof.
  intros Hfuel. unfold Protocol.check_protocol.
  destruct fuel as [|fuel]; [lia|].
  rewrite explore_S. cbn [Protocol.check_state Protocol.first_frame Protocol.last_frame].
  change (Protocol.event_first []) with (@None Protocol.violation).
  cbn [orb]. case_bool_decide as Hb.
  { simpl. eexists. split; [done|]. split; [done|]. intros ?.
    assert (bound = 0%Z) as -> by lia. done. }
  cbn [actions foldM Protocol.explored Protocol.violations Protocol.trace app].
  destruct (explore_count fuel bound ["start"] (0 + 1)%Z
              (Protocol.Run 1 [] [([], false)])) as (r' & Hr' & Hn); [done | lia |].
  rewrite Hr'. cbn [mbind option_bind].
  apply explore_well_formed in Hr' as [Hv _]; [|by apply well_formed_open].
  simpl in Hv. rewrite Hv. simpl. eexists. split; [done|].
  rewrite decide_False in Hn by compute_done.
  split; [lia|]. intros _. rewrite Hn. simpl.
  pose proof (count_noend_closed (Z.to_nat (bound - (0 + 1)))) as Hc.
  nia.
Qed.

Lemma protocol_states_explored_witness :
  ∃ n, Protocol.check_protocol 31 30 false = Some (Protocol.Result true [] n) ∧
       (2 * Z.of_nat n = 2672)%Z.
Proof.
  destruct (protocol_states_explored 31 30 false) as (n & Hn & _ & Hc); [vm_compute; lia|].
  exists n. split; [exact Hn|]. rewrite Hc by lia. reflexivity.
Defined.

(** ** Replay: the sampled functions *)

Section replay_more.
Import Replay.

Lemma drawn_in_DIGESTS t cur : drawn t cur ∈ DIGESTS.
Proof.
  pose proof (choice_DIGESTS t cur) as H. unfold Random.choice, Random.randbelow in H.
  destruct (DIGESTS !! _) as [d|] eqn:Hd; [|done]. injection H as <-.
  by eapply list_elem_of_lookup_2.
Qed.

Lemma sampled_at_function t cur :
  dom (sampled_at t cur) = list_to_set REQUESTS ∧
  ∀ req d, sampled_at t cur !! req = Some d → d ∈ DIGESTS.
Proof.
  unfold sampled_at. split.
  - rewrite !dom_insert_L, dom_empty_L. unfold REQUESTS.
    rewrite !list_to_set_cons, list_to_set_nil. apply (comm_L (∪)).
  - intros req d. destruct (decide (req = "req_b")) as [-> | Hb].
    { rewrite lookup_insert_eq. intros [= <-]. apply drawn_in_DIGESTS. }
    rewrite lookup_insert_ne by done.
    destruct (decide (req = "req_a")) as [-> | Ha].
    { rewrite lookup_insert_eq. intros [= <-]. apply drawn_in_DIGESTS. }
    by rewrite lookup_insert_ne, lookup_empty by done.
Qed.

End replay_more.

(** X13. Every function a Replay trial samples is defined on exactly the two
    requests and takes its values among the three declared digests. *)
Theorem replay_sampled_functions (t : Random.tape) (b : Z) (verbose : bool)
    (r : Replay.result) (exec_fn : gmap string string) :
  Replay.check_replay t b verbose = Some r →
  exec_fn ∈ Replay.functions r →
  dom exec_fn = list_to_set Replay.REQUESTS ∧
  ∀ req d, exec_fn !! req = Some d → d ∈ Replay.DIGESTS.
Proof.
  rewrite check_replay_eq. intros [= <-]. cbn [Replay.functions].
  intros (i & -> & _)%list_elem_of_fmap. apply sampled_at_function.
Qed.

Lemma replay_sampled_functions_witness :
  dom (sampled_at (λ n, n) 0) = list_to_set Replay.REQUESTS ∧
  ∀ req d, sampled_at (λ n, n) 0 !! req = Some d → d ∈ Replay.DIGESTS.
Proof.
  apply (replay_sampled_functions (λ n, n) 1 false
           (Replay.Result true [] 1 [sampled_at (λ n, n) 0])).
  - apply check_replay_eq.
  - left.
Defined.

(** ** Determinism: the recorded calls and the verdict *)

(** X14. Every recorded call is one of the twelve declared operations: its
    prefix is a declared domain prefix, its input a declared input; and as
    many calls are recorded as the bound says (none for a bound that is not
    positive). *)
Theorem determinism_recorded_calls (sha256_hexdigest : string → string)
    (t : Random.tape) (bound : Z) (verbose : bool) (r : Determinism.result) :
  Determinism.check_determinism sha256_hexdigest t bound verbose = Some r →
  Determinism.calls_made r = Z.to_nat bound ∧
  length (Determinism.recorded r) = Z.to_nat bound ∧
  ∀ p i d, (p, i, d) ∈ Determinism.recorded r →
           p ∈ Determinism.DOMAIN_PREFIXES ∧ i ∈ Determinism.INPUTS.
Proof.
  intros Hr. destruct (check_determinism_calls _ _ _ _ _ Hr) as (_ & Hn & _).
  split_and!; [done | | intros p i d Hin; by eapply check_determinism_ops].
  rewrite <- Hn. revert Hr. unfold Determinism.check_determinism.
  destruct (Random.shuffle t Determinism.product_ops 0) as [ops cur].
  destruct (Determinism.call_loop _ _ _ _ _) as [c|]; [simpl|done].
  by intros [= <-].
Qed.

Lemma determinism_recorded_calls_witness :
  ∃ r, Determinism.check_determinism (λ s, s) (λ n, n) 3 false = Some r ∧
       Determinism.calls_made r = 3%nat.
Proof.
  destruct (check_determinism_is_Some (λ s, s) (λ n, n) 3 false) as [r Hr].
  exists r. split; [exact Hr|].
  exact (proj1 (determinism_recorded_calls _ _ _ _ _ Hr)).
Defined.

(** X15. When the hash separates "req:input_a" from "cas:input_a" in its
    first 16 characters, the Determinism check passes for every bound and
    every outcome of the draws. *)
Theorem determinism_passes_when_separated (sha256_hexdigest : string → string)
    (t : Random.tape) (bound : Z) (verbose : bool) :
  digest_of sha256_hexdigest "req:" "input_a"
  ≠ digest_of sha256_hexdigest "cas:" "input_a" →
  ∃ r, Determinism.check_determinism sha256_hexdigest t bound verbose = Some r ∧
       Determinism.passed r = true ∧ Determinism.reported r = [].
Proof.
  intros Hsep.
  destruct (check_determinism_is_Some sha256_hexdigest t bound verbose) as [r Hr].
  exists r. split; [done|].
  destruct (check_determinism_calls _ _ _ _ _ Hr) as (Hok & _ & Hrep).
  assert (Hno : Determinism.DET_INV_2 ∉ Determinism.reported r).
  { rewrite (check_determinism_inv2 _ _ _ _ _ Hr). intros (d & Hreq & Hcas).
    apply Hok in Hreq, Hcas. congruence. }
  assert (Hnil : Determinism.reported r = []).
  { destruct (Determinism.reported r) as [|v vs]; [done|].
    exfalso. apply Hno. rewrite (Hrep v) by left. left. }
  split; [|done]. revert Hr Hnil. unfold Determinism.check_determinism.
  destruct (Random.shuffle t Determinism.product_ops 0) as [ops cur].
  destruct (Determinism.call_loop _ _ _ _ _) as [c|]; [simpl|done].
  intros [= <-]. simpl. intros ->. done.
Qed.

Lemma determinism_passes_when_separated_witness :
  ∃ r, Determinism.check_determinism (λ s, s) (λ n, n) 30 false = Some r ∧
       Determinism.passed r = true ∧ Determinism.reported r = [].
Proof.
  apply determinism_passes_when_separated.
  intros H. vm_compute in H. discriminate H.
Defined.

(** X16. The check fails exactly when both "req:" and "cas:" were called on
    "input_a" and the hash gives the two the same first 16 characters; the
    report is then the single violation DET-INV-2, and it is empty when the
    check passes: DET-INV-1 is never reported. *)
Theorem determinism_fails_iff (sha256_hexdigest : string → string)
    (t : Random.tape) (bound : Z) (verbose : bool) (r : Determinism.result) :
  Determinism.check_determinism sha256_hexdigest t bound verbose = Some r →
  (Determinism.passed r = false ↔
   (∃ d, ("req:", "input_a", d) ∈ Determinism.recorded r) ∧
   (∃ d, ("cas:", "input_a", d) ∈ Determinism.recorded r) ∧
   digest_of sha256_hexdigest "req:" "input_a"
   = digest_of sha256_hexdigest "cas:" "input_a") ∧
  (Determinism.passed r = false →
   Determinism.reported r = [Determinism.DET_INV_2]) ∧
  (Determinism.passed r = true → Determinism.reported r = []).
Proof.
  intros Hr.
  destruct (check_determinism_calls _ _ _ _ _ Hr) as (Hok & _ & _).
  pose proof (check_determinism_inv2 _ _ _ _ _ Hr) as Hinv2.
  assert (Hshape : Determinism.reported r = [] ∧ Determinism.passed r = true ∨
                   Determinism.reported r = [Determinism.DET_INV_2] ∧
                   Determinism.passed r = false).
  { revert Hr. unfold Determinism.check_determinism.
    destruct (Random.shuffle t Determinism.product_ops 0) as [ops cur].
    destruct (Determinism.call_loop _ _ _ _ _) as [c|] eqn:Hc; [simpl|done].
    apply call_loop_ok in Hc as [Hc _];
      [| intros p i d H; simpl in H; by rewrite lookup_empty in H
       | by intros p i d ?%elem_of_nil].
    intros [= <-]. simpl. rewrite (check_inv1_pure sha256_hexdigest) by done.
    unfold Determinism.check_inv2. case_decide; [by right | by left]. }
  split.
  - split.
    + intros Hf. destruct Hshape as [[_ Ht] | [Hrep _]]; [congruence|].
      destruct Hinv2 as [Hinv2 _]. destruct Hinv2 as (d & Hreq & Hcas).
      { rewrite Hrep. left. }
      split_and!; [by exists d | by exists d |].
      apply Hok in Hreq, Hcas. congruence.
    + intros ((d1 & Hreq) & (d2 & Hcas) & Heq).
      destruct Hshape as [[Hrep _] | [_ Hf]]; [|done].
      exfalso. destruct Hinv2 as [_ Hinv2].
      assert (Hin : Determinism.DET_INV_2 ∈ Determinism.reported r).
      { apply Hinv2. exists d1. split; [done|].
        pose proof (Hok _ _ _ Hreq). pose proof (Hok _ _ _ Hcas). congruence. }
      rewrite Hrep in Hin. by apply elem_of_nil in Hin.
  - split.
    + intros Hf. destruct Hshape as [[_ Ht] | [Hrep _]]; [congruence | done].
    + intros Ht. destruct Hshape as [[Hrep _] | [_ Hf]]; [done | congruence].
Qed.

Lemma determinism_fails_iff_witness :
  ∃ r, Determinism.check_determinism (λ _, "0123456789abcdef") (λ n, n) 4 false = Some r ∧
       (Determinism.passed r = false → Determinism.reported r = [Determinism.DET_INV_2]).
Proof.
  destruct (check_determinism_is_Some (λ _, "0123456789abcdef") (λ n, n) 4 false)
    as [r Hr].
  exists r. split; [exact Hr|].
  exact (proj1 (proj2 (determinism_fails_iff _ _ _ _ _ Hr))).
Defined.

(** X17. The memo table of [simulate_hash]: after a call the table holds the
    returned digest for the key, keeps every earlier entry, and a second
    call for the same key returns the same digest without changing it. *)
Theorem determinism_simulate_hash_memo (sha256_hexdigest : string → string)
    (prefix inp : string) (hash_fn : gmap (string * string) string) :
  let r := Determinism.simulate_hash sha256_hexdigest prefix inp hash_fn in
  r.2 !! (prefix, inp) = Some r.1 ∧
  hash_fn ⊆ r.2 ∧
  Determinism.simulate_hash sha256_hexdigest prefix inp r.2 = r.
Proof.
  unfold Determinism.simulate_hash.
  destruct (hash_fn !! (prefix, inp)) as [d|] eqn:Hd; simpl.
  - by rewrite Hd.
  - rewrite lookup_insert_eq. split_and!; [done | by apply insert_subseteq | done].
Qed.

(** ** PolicyCompiler: enumeration, report and errors *)

Section policy_more.
Import Policy.

Lemma elem_of_combinations {A} (pool : list A) : ∀ r c,
  c ∈ combinations pool r ↔ c `sublist_of` pool ∧ length c = r.
Proof.
  induction pool as [|x pool IH]; intros r c.
  - destruct r as [|r]; simpl.
    + rewrite list_elem_of_singleton, sublist_nil_r. split; [by intros ->|by intros [-> _]].
    + rewrite sublist_nil_r. split; [by intros ?%elem_of_nil | by intros [-> [=]]].
  - destruct r as [|r]; cbn [combinations].
    + rewrite list_elem_of_singleton. split.
      * intros ->. split; [apply sublist_nil_l | done].
      * intros [_ Hl]. by apply length_zero_iff_nil.
    + rewrite elem_of_app, list_elem_of_fmap, sublist_cons_r. split.
      * intros [(c' & -> & [Hs Hl]%IH) | [Hs Hl]%IH].
        -- split; [right; by exists c' | by rewrite <- Hl].
        -- split; [by left | done].
      * intros [[Hs | (c' & -> & Hs)] Hl].
        -- right. by apply IH.
        -- left. exists c'. split; [done|]. apply IH. split; [done|].
           simpl in Hl. lia.
Qed.

Lemma length_bind_app {A B} (f g : A → list B) (l : list A) :
  length (l ≫= λ a, f a ++ g a) = (length (l ≫= f) + length (l ≫= g))%nat.
Proof.
  induction l as [|a l IH]; [done|].
  rewrite !bind_cons, !length_app, IH. lia.
Qed.

Lemma length_bind_fmap {A B C} (h : B → C) (f : A → list B) (l : list A) :
  length (l ≫= λ a, h <$> f a) = length (l ≫= f).
Proof.
  induction l as [|a l IH]; [done|].
  by rewrite !bind_cons, !length_app, IH, length_fmap.
Qed.

Lemma combinations_0 {A} (pool : list A) : combinations pool 0 = [[]].
Proof. by destruct pool. Qed.

Lemma length_combinations_sum {A} (pool : list A) : ∀ n,
  (length pool < n)%nat →
  length (seq 0 n ≫= combinations pool) = (2 ^ length pool)%nat.
Proof.
  induction pool as [|x pool IH]; intros n Hn.
  - destruct n as [|n]; [lia|]. rewrite <- cons_seq, bind_cons. simpl.
    rewrite <- fmap_S_seq, list_fmap_bind.
    clear Hn. induction (seq 0 n) as [|k l IHl]; [done|]. by rewrite bind_cons.
  - destruct n as [|n]; [simpl in Hn; lia|].
    simpl in Hn.
    rewrite <- cons_seq, bind_cons, combinations_0, <- fmap_S_seq, list_fmap_bind.
    change (combinations (x :: pool) ∘ S)
      with (λ r, ((x ::.) <$> combinations pool r) ++ combinations pool (S r)).
    rewrite length_app, length_bind_app, length_bind_fmap.
    rewrite (IH n) by lia.
    pose proof (IH (S n)) as HS.
    rewrite <- cons_seq, bind_cons, combinations_0, <- fmap_S_seq, list_fmap_bind in HS.
    rewrite length_app in HS. change (combinations pool ∘ S)
      with (λ r, combinations pool (S r)) in HS.
    simpl in HS. specialize (HS ltac:(lia)).
    simpl. lia.
Qed.

Lemma mapR_hash_strs (l : list string) :
  mapR py_hash (JStr <$> l) = Ok (AStr <$> l).
Proof.
  induction l as [|s l IH]; [done|].
  rewrite !fmap_cons. cbn [mapR py_hash bind]. by rewrite IH.
Qed.

Lemma py_set_strs (l : list string) : py_set (strs l) = Ok (atoms l).
Proof. unfold py_set, strs. cbn [py_iter bind]. by rewrite mapR_hash_strs. Qed.

Lemma load_map_items (l : list (string * list string)) :
  ∀ acc : gmap atom (gset atom),
  foldR (λ m '(k, v), s ←! py_set v; Ok (<[AStr k := s]> m)) acc
        ((λ kv, (kv.1, strs kv.2)) <$> l)
  = Ok (foldl (λ m kv, <[AStr kv.1 := atoms kv.2]> m) acc l).
Proof.
  induction l as [|[k cs] l IH]; intros acc; [done|].
  rewrite fmap_cons. cbn [foldR foldl fst snd]. rewrite py_set_strs. cbn [bind].
  apply IH.
Qed.

Lemma load_conflicts (l : list (list string)) :
  mapR py_set (strs <$> l) = Ok (atoms <$> l).
Proof.
  induction l as [|c l IH]; [done|].
  rewrite !fmap_cons. cbn [mapR]. rewrite py_set_strs. cbn [bind].
  by rewrite IH.
Qed.

Lemma load_render d : load (render d) = Ok (compiled d).
Proof.
  unfold load, render, get, dict_lookup.
  rewrite decide_True by done. cbn [bind].
  rewrite decide_False, decide_True by done.
  rewrite load_map_items. cbn [bind].
  rewrite !decide_False, decide_True by done. cbn [py_iter bind].
  by rewrite load_conflicts.
Qed.

Lemma check_subset_reported cfg vs subset vs' :
  check_subset cfg vs subset = Ok vs' →
  ∀ v, v ∈ vs' → v ∈ vs ∨ ∃ c, v = POLICY_INV_2 c c ∧ {[ c ]} ∈ CONFLICTS cfg.
Proof.
  unfold check_subset. destruct (mapR py_hash subset) as [ps|]; [|done]. cbn [bind].
  destruct (generate cfg (list_to_set ps)) as [gen|] eqn:Hgen; [|done]. cbn [bind].
  destruct (has_conflict cfg gen) eqn:Hconf; [intros [= <-]; by left|].
  rewrite (check_inv1_no_violation _ _ _ _ Hgen). cbn [bind]. intros [= <-] v.
  unfold check_inv2. rewrite elem_of_app. intros [? | Hin]; [by left | right].
  apply list_elem_of_bind in Hin as (c1 & Hin & H1%elem_of_elements).
  apply list_elem_of_bind in Hin as (c2 & Hin & H2%elem_of_elements).
  case_decide as Hc; [|by apply elem_of_nil in Hin].
  apply list_elem_of_singleton in Hin as ->.
  destruct (decide (c1 = c2)) as [<- | Hne].
  - exists c1. split; [done|]. by rewrite (idemp_L (∪)) in Hc.
  - by destruct (proj1 (has_conflict_false cfg gen) Hconf c1 c2).
Qed.

Lemma foldR_check_subset_reported cfg (l : list (list json)) : ∀ vs vs',
  foldR (check_subset cfg) vs l = Ok vs' →
  ∀ v, v ∈ vs' → v ∈ vs ∨ ∃ c, v = POLICY_INV_2 c c ∧ {[ c ]} ∈ CONFLICTS cfg.
Proof.
  induction l as [|subset l IH]; intros vs vs'; cbn [foldR].
  - intros [= <-]. by left.
  - destruct (check_subset cfg vs subset) as [vs1|] eqn:H1; [|done]. cbn [bind].
    intros Hl v Hv. destruct (IH _ _ Hl v Hv) as [Hin | ?]; [|by right].
    by eapply check_subset_reported.
Qed.

Lemma check_policy_compiler_unfold bound verbose policy_file :
  check_policy_compiler bound verbose policy_file
  = (cfg ←! config_of policy_file;
     n ←! py_len (POLICIES cfg);
     pool ←! py_iter (POLICIES cfg);
     violations ←! foldR (check_subset cfg) [] (subsets pool n);
     Ok (Result (bool_decide (violations = [])) violations n (subsets pool n))).
Proof. done. Qed.

Lemma combinations_fmap {A B} (f : A → B) (pool : list A) : ∀ r,
  combinations (f <$> pool) r = (fmap (M:=list) f) <$> combinations pool r.
Proof.
  induction pool as [|x pool IH]; intros [|r]; try done.
  rewrite fmap_cons. cbn [combinations]. rewrite !IH, fmap_app.
  f_equal. rewrite <- !list_fmap_compose. by apply list_fmap_ext.
Qed.

Lemma subsets_strs (ps : list string) :
  subsets (JStr <$> ps) (length ps) = (fmap (M:=list) JStr) <$> subsequences ps.
Proof.
  unfold subsets, subsequences. induction (seq 0 (length ps + 1)) as [|r l IH]; [done|].
  by rewrite !bind_cons, fmap_app, combinations_fmap, IH.
Qed.

Lemma elem_of_subsequences {A} (pool : list A) c :
  c ∈ subsequences pool ↔ c `sublist_of` pool.
Proof.
  unfold subsequences. rewrite list_elem_of_bind. split.
  - by intros (r & [Hs _]%elem_of_combinations & _).
  - intros Hs. exists (length c). split; [by apply elem_of_combinations|].
    apply elem_of_seq. apply sublist_length in Hs. lia.
Qed.

Lemma foldR_generate_raise cfg (l : list atom) : ∀ acc,
  (∃ p, p ∈ l ∧ COMPILER_MAP cfg !! p = None) →
  foldR (λ generated_constraints p,
           match COMPILER_MAP cfg !! p with
           | Some cs => Ok (generated_constraints ∪ cs)
           | None => Raise KeyError
           end) acc l = Raise KeyError.
Proof.
  induction l as [|q l IH]; intros acc (p & Hin & Hp).
  - by apply elem_of_nil in Hin.
  - cbn [foldR]. destruct (COMPILER_MAP cfg !! q) as [cs|] eqn:Hq; [|done].
    cbn [bind]. apply IH. exists p. split; [|done].
    apply elem_of_cons in Hin as [-> | ?]; [congruence | done].
Qed.

Lemma foldR_generate_ok cfg (l : list atom) : ∀ acc,
  (∀ p, p ∈ l → is_Some (COMPILER_MAP cfg !! p)) →
  ∃ gen, foldR (λ generated_constraints p,
                  match COMPILER_MAP cfg !! p with
                  | Some cs => Ok (generated_constraints ∪ cs)
                  | None => Raise KeyError
                  end) acc l = Ok gen.
Proof.
  induction l as [|q l IH]; intros acc Hall; [by eexists|].
  cbn [foldR]. destruct (Hall q) as [cs ->]; [left|]. cbn [bind].
  apply IH. intros p Hp. apply Hall. by right.
Qed.

Lemma elem_of_atoms p (sub : list string) :
  p ∈ elements (list_to_set (AStr <$> sub) : gset atom) ↔ ∃ s, p = AStr s ∧ s ∈ sub.
Proof. by rewrite elem_of_elements, elem_of_list_to_set, list_elem_of_fmap. Qed.

(** A subset of named policies either is checked or raises KeyError. *)
Lemma check_subset_strs cfg vs (sub : list string) :
  ((∀ s, s ∈ sub → is_Some (COMPILER_MAP cfg !! AStr s)) →
   ∃ vs', check_subset cfg vs (JStr <$> sub) = Ok vs') ∧
  ((∃ s, s ∈ sub ∧ COMPILER_MAP cfg !! AStr s = None) →
   check_subset cfg vs (JStr <$> sub) = Raise KeyError).
Proof.
  unfold check_subset. rewrite mapR_hash_strs. cbn [bind]. split.
  - intros Hall.
    destruct (foldR_generate_ok cfg (elements (list_to_set (AStr <$> sub) : gset atom)) ∅)
      as [gen Hgen].
    { intros p (s & -> & Hs)%elem_of_atoms. by apply Hall. }
    change (generate cfg (list_to_set (AStr <$> sub)) = Ok gen) in Hgen.
    rewrite Hgen. cbn [bind]. destruct (has_conflict cfg gen); [by eexists|].
    rewrite (check_inv1_no_violation _ _ _ _ Hgen). cbn [bind]. by eexists.
  - intros (s & Hs & Hnone). unfold generate.
    rewrite foldR_generate_raise; [done|]. exists (AStr s). split; [|done].
    apply elem_of_atoms. by exists s.
Qed.

Lemma foldR_ok {A B} (f : B → A → res B) (l : list A) : ∀ b,
  (∀ a b, a ∈ l → ∃ b', f b a = Ok b') → ∃ b', foldR f b l = Ok b'.
Proof.
  induction l as [|a l IH]; intros b Hall; [by eexists|].
  cbn [foldR]. destruct (Hall a b) as [b1 ->]; [left|]. cbn [bind].
  apply IH. intros a' b' Ha'. apply Hall. by right.
Qed.

Lemma foldR_raise {A B} (f : B → A → res B) (l : list A) e : ∀ b,
  (∀ a b, a ∈ l → (∃ b', f b a = Ok b') ∨ f b a = Raise e) →
  (∃ a, a ∈ l ∧ ∀ b, f b a = Raise e) →
  foldR f b l = Raise e.
Proof.
  induction l as [|a l IH]; intros b Hall (a0 & Hin & Hraise).
  - by apply elem_of_nil in Hin.
  - cbn [foldR]. destruct (Hall a b) as [[b1 Hb1] | ->]; [left | | done].
    rewrite Hb1. cbn [bind]. apply IH.
    + intros a' b' Ha'. apply Hall. by right.
    + exists a0. split; [|done].
      apply elem_of_cons in Hin as [-> | ?]; [|done].
      rewrite Hraise in Hb1. discriminate Hb1.
Qed.

Lemma compiled_map_is_Some d (s : string) :
  is_Some (COMPILER_MAP (compiled d) !! AStr s) ↔ s ∈ (def_map d).*1.
Proof.
  unfold compiled. cbn [COMPILER_MAP].
  assert (H : ∀ (l : list (string * list string)) (acc : gmap atom (gset atom)),
             is_Some (foldl (λ m kv, <[AStr kv.1 := atoms kv.2]> m) acc l !! AStr s) ↔
             is_Some (acc !! AStr s) ∨ s ∈ l.*1).
  { induction l as [|[k cs] l IH]; intros acc.
    - simpl. split; [by left|]. by intros [? | ?%elem_of_nil].
    - cbn [foldl fst snd]. rewrite IH, fmap_cons, elem_of_cons. cbn [fst].
      destruct (decide (k = s)) as [-> | Hne].
      + rewrite lookup_insert_eq. split; [by right; left | by left].
      + rewrite lookup_insert_ne by congruence. split.
        * intros [? | ?]; [by left | by right; right].
        * intros [? | [? | ?]]; [by left | congruence | by right]. }
  rewrite H, lookup_empty. split; [by intros [[? [=]] | ?] | by right].
Qed.

End policy_more.

(** X18. The subsets enumerated by [itertools.combinations(POLICIES, r)] for
    r = 0 .. len(POLICIES) are exactly the sub-sequences of the policy list,
    each of them of length r at round r; there are 2 ^ len(POLICIES) of
    them. *)
Theorem policy_subsets_enumerated (pool : list Policy.json) :
  (∀ r c, c ∈ Policy.combinations pool r ↔ c `sublist_of` pool ∧ length c = r) ∧
  (∀ c, c ∈ Policy.subsets pool (length pool) ↔ c `sublist_of` pool) ∧
  length (Policy.subsets pool (length pool)) = (2 ^ length pool)%nat.
Proof.
  split_and!.
  - apply elem_of_combinations.
  - apply (elem_of_subsequences pool).
  - unfold Policy.subsets. apply length_combinations_sum. lia.
Qed.

(** X19. Whatever the definitions, the only violation the check can report
    is POLICY-INV-2 for a constraint paired with itself, for a declared
    conflict with that constraint as its single member: POLICY-INV-1 is
    never reported, and neither is a conflict between two constraints. *)
Theorem policy_reported_violations (bound : Z) (verbose : bool)
    (policy_file : option Policy.json) (cfg : Policy.config) (r : Policy.result) :
  config_of policy_file = Policy.Ok cfg →
  Policy.check_policy_compiler bound verbose policy_file = Policy.Ok r →
  ∀ v, v ∈ Policy.reported r →
       ∃ c, v = Policy.POLICY_INV_2 c c ∧ {[ c ]} ∈ Policy.CONFLICTS cfg.
Proof.
  intros Hcfg. rewrite check_policy_compiler_unfold, Hcfg. cbn [Policy.bind].
  destruct (Policy.py_len _) as [n|]; [|done]. cbn [Policy.bind].
  destruct (Policy.py_iter _) as [pool|]; [|done]. cbn [Policy.bind].
  destruct (Policy.foldR _ _ _) as [vs|] eqn:Hvs; [|done]. cbn [Policy.bind].
  intros [= <-] v Hv. cbn [Policy.reported] in Hv.
  destruct (foldR_check_subset_reported _ _ _ _ Hvs v Hv) as [?%elem_of_nil | ?]; done.
Qed.

Lemma policy_reported_violations_witness :
  ∃ c, Policy.POLICY_INV_2 (Policy.AStr "c1") (Policy.AStr "c1") = Policy.POLICY_INV_2 c c ∧
       {[ c ]} ∈ [ ({[ Policy.AStr "c1" ]} : gset Policy.atom) ].
Proof.
  apply (policy_reported_violations 30 false
           (Some (Policy.JObj
             [("policies", Policy.JArr [Policy.JStr "p1"]);
              ("map", Policy.JObj [("p1", Policy.JArr [Policy.JStr "c1"])]);
              ("conflicts", Policy.JArr [Policy.JArr [Policy.JStr "c1"]])]))
           (Policy.Config (Policy.JArr [Policy.JStr "p1"])
              {[ Policy.AStr "p1" := {[ Policy.AStr "c1" ]} ]}
              [ {[ Policy.AStr "c1" ]} ])
           (Policy.Result false
              [Policy.POLICY_INV_2 (Policy.AStr "c1") (Policy.AStr "c1")] 1
              [[]; [Policy.JStr "p1"]])); [reflexivity | reflexivity |].
  cbn [Policy.reported]. left.
Defined.

(** X20. If no declared conflict has a single member, the check passes
    whenever it returns: it cannot fail on definitions whose conflicts are
    proper pairs. *)
Theorem policy_passes_without_single_member_conflict (bound : Z) (verbose : bool)
    (policy_file : option Policy.json) (cfg : Policy.config) (r : Policy.result) :
  config_of policy_file = Policy.Ok cfg →
  (∀ c, {[ c ]} ∉ Policy.CONFLICTS cfg) →
  Policy.check_policy_compiler bound verbose policy_file = Policy.Ok r →
  Policy.passed r = true ∧ Policy.reported r = [].
Proof.
  intros Hcfg Hproper. rewrite check_policy_compiler_unfold, Hcfg. cbn [Policy.bind].
  destruct (Policy.py_len _) as [n|]; [|done]. cbn [Policy.bind].
  destruct (Policy.py_iter _) as [pool|]; [|done]. cbn [Policy.bind].
  destruct (Policy.foldR _ _ _) as [vs|] eqn:Hvs; [|done]. cbn [Policy.bind].
  intros [= <-]. cbn [Policy.passed Policy.reported].
  assert (vs = []) as ->; [|done].
  destruct vs as [|v vs]; [done|]. exfalso.
  destruct (foldR_check_subset_reported _ _ _ _ Hvs v) as [?%elem_of_nil | (c & _ & Hc)];
    [left | done | by apply (Hproper c)].
Qed.

Lemma policy_passes_without_single_member_conflict_witness :
  Policy.passed (Policy.Result true [] 3
                   (Policy.subsets [Policy.JStr "p1"; Policy.JStr "p2"; Policy.JStr "p3"] 3))
  = true.
Proof.
  apply (policy_passes_without_single_member_conflict 30 false None Policy.builtin).
  - reflexivity.
  - intros c Hc. apply list_elem_of_singleton in Hc.
    assert (Hs : size ({[ c ]} : gset Policy.atom) = 2%nat).
    { rewrite Hc. rewrite size_union, !size_singleton; [done|].
      apply disjoint_singleton_l. by intros [=]%elem_of_singleton. }
    rewrite size_singleton in Hs. discriminate Hs.
  - reflexivity.
Defined.

(** X21. A definition file of the documented shape is loaded without error,
    and the check then returns exactly when every listed policy has an entry
    in the map, having enumerated 2 ^ len(policies) subsets; when some
    policy has no entry the check raises KeyError. *)
Theorem policy_well_shaped_definition (bound : Z) (verbose : bool) (d : definition) :
  Policy.load (render d) = Policy.Ok (compiled d) ∧
  (Forall (λ p, p ∈ (def_map d).*1) (def_policies d) →
   ∃ r, Policy.check_policy_compiler bound verbose (Some (render d)) = Policy.Ok r ∧
        Policy.printed_policies r = length (def_policies d) ∧
        length (Policy.enumerated r) = (2 ^ length (def_policies d))%nat) ∧
  (¬ Forall (λ p, p ∈ (def_map d).*1) (def_policies d) →
   Policy.check_policy_compiler bound verbose (Some (render d))
   = Policy.Raise Policy.KeyError).
Proof.
  split; [apply load_render|].
  assert (Hunfold : Policy.check_policy_compiler bound verbose (Some (render d))
    = Policy.bind
        (Policy.foldR (Policy.check_subset (compiled d)) []
           ((fmap (M:=list) Policy.JStr) <$> subsequences (def_policies d)))
        (λ violations,
           Policy.Ok (Policy.Result (bool_decide (violations = [])) violations
                        (length (def_policies d))
                        ((fmap (M:=list) Policy.JStr) <$> subsequences (def_policies d))))).
  { rewrite check_policy_compiler_unfold. unfold config_of. rewrite load_render.
    cbn [Policy.bind compiled Policy.POLICIES strs Policy.py_len Policy.py_iter].
    by rewrite length_fmap, subsets_strs. }
  rewrite Hunfold. clear Hunfold.
  assert (Hsub : ∀ sub, sub ∈ subsequences (def_policies d) →
                        ∀ s, s ∈ sub → s ∈ def_policies d).
  { intros sub Hs%elem_of_subsequences s Hin. by eapply elem_of_sublist. }
  split.
  - intros Hall. rewrite Forall_forall in Hall.
    destruct (foldR_ok (Policy.check_subset (compiled d))
                ((fmap (M:=list) Policy.JStr) <$> subsequences (def_policies d)) [])
      as [vs ->].
    { intros c vs (sub & -> & Hin)%list_elem_of_fmap.
      apply check_subset_strs. intros s Hs. apply compiled_map_is_Some, Hall.
      by eapply Hsub. }
    cbn [Policy.bind]. eexists. split; [done|].
    cbn [Policy.printed_policies Policy.enumerated]. split; [done|].
    rewrite length_fmap. unfold subsequences. apply length_combinations_sum. lia.
  - intros (p & Hp & Hmiss)%not_Forall_Exists%Exists_exists; [|apply _].
    rewrite (foldR_raise _ _ Policy.KeyError); [done | |].
    + intros c vs (sub & -> & Hin)%list_elem_of_fmap.
      destruct (decide (Forall (λ s, is_Some (Policy.COMPILER_MAP (compiled d) !! Policy.AStr s)) sub))
        as [Hall | (s & Hs & Hnone)%not_Forall_Exists%Exists_exists]; [| |apply _].
      * left. apply check_subset_strs. by apply Forall_forall.
      * right. apply check_subset_strs. exists s. split; [done|].
        by apply eq_None_not_Some.
    + exists [Policy.JStr p]. split.
      * apply list_elem_of_fmap. exists [p]. split; [done|].
        apply elem_of_subsequences. by apply singleton_sublist_l.
      * intros vs. apply (check_subset_strs (compiled d) vs [p]).
        exists p. split; [left|]. apply eq_None_not_Some.
        by rewrite compiled_map_is_Some.
Qed.

Lemma policy_well_shaped_definition_witness :
  ∃ r, Policy.check_policy_compiler 30 false
         (Some (render (Def ["p1"; "p2"] [("p1", ["c1"]); ("p2", ["c2"])] [["c1"; "c2"]])))
       = Policy.Ok r ∧
       Policy.printed_policies r = 2%nat ∧
       length (Policy.enumerated r) = 4%nat.
Proof.
  apply (policy_well_shaped_definition 30 false
           (Def ["p1"; "p2"] [("p1", ["c1"]); ("p2", ["c2"])] [["c1"; "c2"]])).
  cbn [def_policies def_map fmap list_fmap fst].
  repeat constructor.
Defined.

(** ** The driver *)

Lemma check_protocol_returns fuel bound verbose :
  (Z.to_nat bound < fuel)%nat →
  ∃ n, Protocol.check_protocol fuel bound verbose = Some (Protocol.Result true [] n).
Proof.
  assert (Hinit : well_formed ([], false)) by (split; [by left | done]).
  intros Hfuel. unfold Protocol.check_protocol.
  destruct (explore_total fuel bound [] false 0 (Protocol.Run 0 [] []))
    as [r Hr]; [done | lia |].
  rewrite Hr. simpl. apply explore_well_formed in Hr as [Hv _]; [|done].
  simpl in Hv. rewrite Hv. by eexists.
Qed.

Lemma check_cas_returns fuel bound verbose :
  (126 ≤ fuel)%nat →
  ∃ n, CAS.check_cas fuel bound verbose = Some (CAS.Result true [] n).
Proof.
  intros Hfuel.
  destruct (bfs_loop_total bound fuel CAS.start) as [l Hl].
  - apply Forall_singleton. apply closure_initial.
  - apply empty_subseteq.
  - unfold passes_left, CAS.start. cbn [CAS.queue CAS.visited length].
    rewrite closure_size, size_empty. lia.
  - unfold CAS.check_cas. rewrite Hl. simpl.
    apply bfs_loop_reachable in Hl as ->;
      [by eexists | by apply Forall_singleton; apply rtc_refl | done].
Qed.

Section main_facts.
Import Main.

Variable sha256_hexdigest : string → string.
Variable t : Random.tape.
Variable fuel : nat.

Lemma main_CAS a :
  spec a = "CAS" → (126 ≤ fuel)%nat →
  main sha256_hexdigest t fuel a = Some (Exit 0 [("CAS", true)]).
Proof.
  intros Hs Hfuel. unfold main. rewrite Hs.
  destruct (check_cas_returns fuel (bound a) (verbose a) Hfuel) as [n Hn].
  rewrite decide_True by compute_done.
  rewrite decide_True by compute_done. rewrite Hn. cbn [mbind option_bind CAS.passed].
  rewrite decide_False by compute_done. cbn [mbind option_bind].
  rewrite decide_False by compute_done. cbn [mbind option_bind].
  rewrite decide_False by compute_done. cbn [mbind option_bind].
  by rewrite decide_False by compute_done.
Qed.

Lemma main_Protocol a :
  spec a = "Protocol" → (Z.to_nat (bound a) < fuel)%nat →
  main sha256_hexdigest t fuel a = Some (Exit 0 [("Protocol", true)]).
Proof.
  intros Hs Hfuel. unfold main. rewrite Hs.
  destruct (check_protocol_returns fuel (bound a) (verbose a) Hfuel) as [n Hn].
  rewrite decide_True by compute_done.
  rewrite decide_False by compute_done. cbn [mbind option_bind].
  rewrite decide_True by compute_done. rewrite Hn.
  cbn [mbind option_bind Protocol.passed app].
  rewrite decide_False by compute_done. cbn [mbind option_bind].
  rewrite decide_False by compute_done. cbn [mbind option_bind].
  by rewrite decide_False by compute_done.
Qed.

Lemma main_Replay a :
  spec a = "Replay" →
  main sha256_hexdigest t fuel a = Some (Exit 0 [("Replay", true)]).
Proof.
  intros Hs. unfold main. rewrite Hs.
  rewrite decide_True by compute_done.
  rewrite decide_False by compute_done. cbn [mbind option_bind].
  rewrite decide_False by compute_done. cbn [mbind option_bind].
  rewrite decide_True by compute_done. rewrite check_replay_eq.
  cbn [mbind option_bind Replay.passed app].
  rewrite decide_False by compute_done. cbn [mbind option_bind].
  by rewrite decide_False by compute_done.
Qed.

Lemma main_not_all a pf :
  spec a ≠ "all" →
  main sha256_hexdigest t fuel a
  = main sha256_hexdigest t fuel (Args (spec a) (bound a) pf (verbose a)).
Proof.
  destruct a as [s b p v]. cbn [spec bound verbose policy_file].
  intros Hs. unfold main. cbn [spec bound verbose policy_file].
  destruct (decide (s ∈ choices)) as [Hc|]; [|done].
  assert (Hno : s ∉ ["PolicyCompiler"; "all"]).
  { intros [-> | [-> | []%elem_of_nil]%elem_of_cons]%elem_of_cons; [|done].
    revert Hc. compute_done. }
  by destruct (decide (s ∈ ["PolicyCompiler"; "all"])).
Qed.

End main_facts.

(** X22. Run on one of the specs CAS, Protocol or Replay alone, the driver
    exits with status 0 whatever the bound (below the recursion depth at
    hand, for Protocol), the draws and the policy file. *)
Theorem main_single_spec_exits_0 (sha256_hexdigest : string → string)
    (t : Random.tape) (fuel : nat) (a : Main.args) :
  Main.spec a ∈ ["CAS"; "Protocol"; "Replay"] →
  (126 ≤ fuel)%nat → (Z.to_nat (Main.bound a) < fuel)%nat →
  Main.main sha256_hexdigest t fuel a = Some (Main.Exit 0 [(Main.spec a, true)]).
Proof.
  intros Hs Hcas Hproto.
  apply elem_of_cons in Hs as [Hs | Hs]; [rewrite Hs; by apply main_CAS|].
  apply elem_of_cons in Hs as [Hs | Hs]; [rewrite Hs; by apply main_Protocol|].
  apply list_elem_of_singleton in Hs. rewrite Hs. by apply main_Replay.
Qed.

Lemma main_single_spec_exits_0_witness :
  Main.main (λ s, s) (λ n, n) 126 (Main.Args "Protocol" 30 None false)
  = Some (Main.Exit 0 [("Protocol", true)]).
Proof.
  apply (main_single_spec_exits_0 (λ s, s) (λ n, n) 126 (Main.Args "Protocol" 30 None false)).
  - compute_done.
  - lia.
  - vm_compute. lia.
Defined.

(** X23. The PolicyCompiler check runs only under --spec all: the value
    "PolicyCompiler" the usage text gives is not among the accepted choices
    and is rejected, and with any other spec the policy file is ignored. *)
Theorem main_policy_only_with_all (sha256_hexdigest : string → string)
    (t : Random.tape) (fuel : nat) (a : Main.args) :
  (Main.spec a = "PolicyCompiler" →
   Main.main sha256_hexdigest t fuel a = Some Main.Usage) ∧
  (Main.spec a ≠ "all" →
   ∀ pf, Main.main sha256_hexdigest t fuel a
         = Main.main sha256_hexdigest t fuel
             (Main.Args (Main.spec a) (Main.bound a) pf (Main.verbose a))).
Proof.
  split.
  - intros Hs. unfold Main.main. rewrite Hs. by rewrite decide_False by compute_done.
  - intros Hs pf. by apply main_not_all.
Qed.

Lemma main_policy_only_with_all_witness :
  Main.main (λ s, s) (λ n, n) 126 (Main.Args "PolicyCompiler" 50 None false)
  = Some Main.Usage.
Proof.
  apply (main_policy_only_with_all (λ s, s) (λ n, n) 126
           (Main.Args "PolicyCompiler" 50 None false)).
  reflexivity.
Defined.

(** X24. Under --spec all the five checks run in the order CAS, Protocol,
    Replay, Determinism, PolicyCompiler. The first three always pass, so the
    exit status is 0 exactly when the Determinism check (which reads the
    generator where Replay left it) and the PolicyCompiler check pass; an
    exception of the PolicyCompiler check is not caught and ends the run
    before any summary line. *)
Theorem main_all_specs (sha256_hexdigest : string → string)
    (t : Random.tape) (fuel : nat) (a : Main.args) :
  Main.spec a = "all" →
  (126 ≤ fuel)%nat → (Z.to_nat (Main.bound a) < fuel)%nat →
  ∃ r, Determinism.check_determinism sha256_hexdigest
         (Main.advance t (2 * Z.to_nat (Main.bound a `min` 20)))
         (Main.bound a) (Main.verbose a) = Some r ∧
       Main.main sha256_hexdigest t fuel a
       = Some match Policy.check_policy_compiler (Main.bound a) (Main.verbose a)
                      (Main.policy_file a) with
              | Policy.Ok pr =>
                  Main.Exit
                    (if Determinism.passed r && Policy.passed pr then 0 else 1)
                    [("CAS", true); ("Protocol", true); ("Replay", true);
                     ("Determinism", Determinism.passed r);
                     ("PolicyCompiler", Policy.passed pr)]
              | Policy.Raise e =>
                  Main.Uncaught e
                    [("CAS", true); ("Protocol", true); ("Replay", true);
                     ("Determinism", Determinism.passed r)]
              end.
Proof.
  intros Hs Hcas Hproto. destruct a as [s b pf v].
  cbn [Main.spec Main.bound Main.verbose Main.policy_file] in *. subst s.
  destruct (check_determinism_is_Some sha256_hexdigest
              (Main.advance t (2 * Z.to_nat (b `min` 20))) b v)
    as [r Hr].
  exists r. split; [exact Hr|]. unfold Main.main.
  cbn [Main.spec Main.bound Main.verbose Main.policy_file].
  destruct (check_cas_returns fuel b v Hcas) as [n1 Hn1].
  destruct (check_protocol_returns fuel b v Hproto) as [n2 Hn2].
  rewrite decide_True by compute_done.
  rewrite decide_True by compute_done. rewrite Hn1. cbn [mbind option_bind CAS.passed].
  rewrite decide_True by compute_done. rewrite Hn2.
  cbn [mbind option_bind Protocol.passed app].
  rewrite decide_True by compute_done. rewrite check_replay_eq.
  cbn [mbind option_bind Replay.passed Replay.functions app].
  rewrite length_fmap, length_seq.
  rewrite decide_True by compute_done. rewrite Hr.
  cbn [mbind option_bind app].
  rewrite decide_True by compute_done.
  destruct (Policy.check_policy_compiler _ _ _) as [pr|e]; [|done].
  unfold Main.finish. cbn [app forallb snd andb]. by rewrite andb_true_r.
Qed.

Lemma main_all_specs_witness :
  ∃ r, Determinism.check_determinism (λ s, s) (Main.advance (λ n, n) 40) 30 false = Some r ∧
       Main.main (λ s, s) (λ n, n) 126 (Main.Args "all" 30 None false)
       = Some (Main.Exit (if Determinism.passed r && true then 0 else 1)
                 [("CAS", true); ("Protocol", true); ("Replay", true);
                  ("Determinism", Determinism.passed r);
                  ("PolicyCompiler", true)]).
Proof.
  destruct (main_all_specs (λ s, s) (λ n, n) 126 (Main.Args "all" 30 None false))
    as (r & Hr & Hmain); [reflexivity | lia | vm_compute; lia |].
  exists r. split; [exact Hr | exact Hmain].
Defined.
